(** * The session negotiation state machine of [src/App.tsx]

    A shallow embedding of the [App] component: its React state and refs
    become one record, its synchronous functions become state
    transformers, and its [async] functions become resumptions that stop
    at every [await] on the browser (media acquisition and the
    [RTCPeerConnection] promises).  An event loop delivers user
    operations, inbound socket events, transport callbacks and promise
    settlements one at a time, so that other events may run between an
    [await] and its continuation, as in the browser.

    [sendChat], the mute buttons and the status pill are modelled beside
    the event loop.  Left out: the rest of the presentation (age gate,
    chat panel toggle, typing into the draft) and the unmounting of the
    component. *)

From Stdlib Require Import String ZArith Bool Lia.
From stdpp Require Import base option list.

Open Scope string_scope.
Open Scope list_scope.

(** ** Data model *)

(** [type Role = "caller" | "callee" | null] *)
Inductive RoleName := caller | callee.
Definition Role := option RoleName.

(** [type QueueInfo]; the numbers are only stored and displayed. *)
Record QueueInfo := {
  position : Z;
  etaSec : Z;
  waitedSec : Z;
}.

(** [type ChatMsg] *)
Record ChatMsg := {
  id : string;
  text : string;
  ts : Z;
  mine : bool;
}.

(** Payload of the [chat-message] event: a [ChatMsg] without [mine]. *)
Record ChatPayload := {
  msg_id : string;
  msg_text : string;
  msg_ts : Z;
}.

(** Session descriptions and candidates are opaque payloads. *)
Definition Sdp := string.
Definition Candidate := string.

(** A [MediaStream]: an identity and its tracks. *)
Definition Track := nat.
Record MediaStream := {
  streamId : nat;
  getTracks : list Track;
}.

(** [RTCPeerConnectionState] *)
Inductive ConnectionState :=
  cs_new | cs_connecting | cs_connected | cs_disconnected | cs_failed | cs_closed.

Definition connectionState_str (c : ConnectionState) : string :=
  match c with
  | cs_new => "new"
  | cs_connecting => "connecting"
  | cs_connected => "connected"
  | cs_disconnected => "disconnected"
  | cs_failed => "failed"
  | cs_closed => "closed"
  end.

(** One [RTCPeerConnection] object.  The three handler properties hold
    either [null] or the one closure [createPeerConnection] assigns, so a
    boolean records which. *)
Record PeerConnection := {
  closed : bool;
  onicecandidate : bool;
  ontrack : bool;
  onconnectionstatechange : bool;
  senders : list (Track * nat);
  localDescription : option Sdp;
  remoteDescription : option Sdp;
  remoteCandidates : list Candidate;
  connectionState : ConnectionState;
}.

(** [new RTCPeerConnection(ICE_SERVERS)] *)
Definition new_pc : PeerConnection :=
  {| closed := false; onicecandidate := false; ontrack := false;
     onconnectionstatechange := false; senders := [];
     localDescription := None; remoteDescription := None;
     remoteCandidates := []; connectionState := cs_new |}.

(** A [<video>] element, as far as the component uses it. *)
Record VideoElement := { srcObject : option MediaStream }.

(** What [emit] was called with. *)
Inductive OutEvent :=
| emit_hello (clientId : string)
| emit_find
| emit_next
| emit_stop
| emit_rtc_offer (sdp : Sdp)
| emit_rtc_answer (sdp : Sdp)
| emit_rtc_ice (candidate : Candidate).

(** Errors are the exceptions and rejections of the browser. *)
Inductive Err := DOMException (name : string).

(** The component: React state, refs, the objects the refs point to, and
    the log of emitted events.  [pcs] is the store of every
    [RTCPeerConnection] constructed so far; [pcRef] holds an index into
    it. *)
Record State := {
  status : string;
  role : Role;
  onboardingDone : bool;
  queueInfo : option QueueInfo;
  chat : list ChatMsg;
  draft : string;
  socketRef : bool;
  pcRef : option nat;
  localStreamRef : option MediaStream;
  localVideoRef : option VideoElement;
  remoteVideoRef : option VideoElement;
  pcs : list PeerConnection;
  out : list OutEvent;
}.

(** [useState] initial values and [useRef(null)]. *)
Definition initial : State :=
  {| status := "Idle"; role := None; onboardingDone := false;
     queueInfo := None; chat := []; draft := "";
     socketRef := false; pcRef := None; localStreamRef := None;
     localVideoRef := None; remoteVideoRef := None;
     pcs := []; out := [] |}.

(** *** Field updates *)

Definition setStatus (v : string) (s : State) : State :=
  {| status := v; role := role s; onboardingDone := onboardingDone s;
     queueInfo := queueInfo s; chat := chat s; draft := draft s;
     socketRef := socketRef s; pcRef := pcRef s;
     localStreamRef := localStreamRef s; localVideoRef := localVideoRef s;
     remoteVideoRef := remoteVideoRef s; pcs := pcs s; out := out s |}.

Definition setRole (v : Role) (s : State) : State :=
  {| status := status s; role := v; onboardingDone := onboardingDone s;
     queueInfo := queueInfo s; chat := chat s; draft := draft s;
     socketRef := socketRef s; pcRef := pcRef s;
     localStreamRef := localStreamRef s; localVideoRef := localVideoRef s;
     remoteVideoRef := remoteVideoRef s; pcs := pcs s; out := out s |}.

Definition setOnboardingDone (v : bool) (s : State) : State :=
  {| status := status s; role := role s; onboardingDone := v;
     queueInfo := queueInfo s; chat := chat s; draft := draft s;
     socketRef := socketRef s; pcRef := pcRef s;
     localStreamRef := localStreamRef s; localVideoRef := localVideoRef s;
     remoteVideoRef := remoteVideoRef s; pcs := pcs s; out := out s |}.

Definition setQueueInfo (v : option QueueInfo) (s : State) : State :=
  {| status := status s; role := role s; onboardingDone := onboardingDone s;
     queueInfo := v; chat := chat s; draft := draft s;
     socketRef := socketRef s; pcRef := pcRef s;
     localStreamRef := localStreamRef s; localVideoRef := localVideoRef s;
     remoteVideoRef := remoteVideoRef s; pcs := pcs s; out := out s |}.

Definition setChat (v : list ChatMsg) (s : State) : State :=
  {| status := status s; role := role s; onboardingDone := onboardingDone s;
     queueInfo := queueInfo s; chat := v; draft := draft s;
     socketRef := socketRef s; pcRef := pcRef s;
     localStreamRef := localStreamRef s; localVideoRef := localVideoRef s;
     remoteVideoRef := remoteVideoRef s; pcs := pcs s; out := out s |}.

Definition setDraft (v : string) (s : State) : State :=
  {| status := status s; role := role s; onboardingDone := onboardingDone s;
     queueInfo := queueInfo s; chat := chat s; draft := v;
     socketRef := socketRef s; pcRef := pcRef s;
     localStreamRef := localStreamRef s; localVideoRef := localVideoRef s;
     remoteVideoRef := remoteVideoRef s; pcs := pcs s; out := out s |}.

Definition set_socketRef (v : bool) (s : State) : State :=
  {| status := status s; role := role s; onboardingDone := onboardingDone s;
     queueInfo := queueInfo s; chat := chat s; draft := draft s;
     socketRef := v; pcRef := pcRef s;
     localStreamRef := localStreamRef s; localVideoRef := localVideoRef s;
     remoteVideoRef := remoteVideoRef s; pcs := pcs s; out := out s |}.

Definition set_pcRef (v : option nat) (s : State) : State :=
  {| status := status s; role := role s; onboardingDone := onboardingDone s;
     queueInfo := queueInfo s; chat := chat s; draft := draft s;
     socketRef := socketRef s; pcRef := v;
     localStreamRef := localStreamRef s; localVideoRef := localVideoRef s;
     remoteVideoRef := remoteVideoRef s; pcs := pcs s; out := out s |}.

Definition set_localStreamRef (v : option MediaStream) (s : State) : State :=
  {| status := status s; role := role s; onboardingDone := onboardingDone s;
     queueInfo := queueInfo s; chat := chat s; draft := draft s;
     socketRef := socketRef s; pcRef := pcRef s;
     localStreamRef := v; localVideoRef := localVideoRef s;
     remoteVideoRef := remoteVideoRef s; pcs := pcs s; out := out s |}.

Definition set_localVideoRef (v : option VideoElement) (s : State) : State :=
  {| status := status s; role := role s; onboardingDone := onboardingDone s;
     queueInfo := queueInfo s; chat := chat s; draft := draft s;
     socketRef := socketRef s; pcRef := pcRef s;
     localStreamRef := localStreamRef s; localVideoRef := v;
     remoteVideoRef := remoteVideoRef s; pcs := pcs s; out := out s |}.

Definition set_remoteVideoRef (v : option VideoElement) (s : State) : State :=
  {| status := status s; role := role s; onboardingDone := onboardingDone s;
     queueInfo := queueInfo s; chat := chat s; draft := draft s;
     socketRef := socketRef s; pcRef := pcRef s;
     localStreamRef := localStreamRef s; localVideoRef := localVideoRef s;
     remoteVideoRef := v; pcs := pcs s; out := out s |}.

Definition set_pcs (v : list PeerConnection) (s : State) : State :=
  {| status := status s; role := role s; onboardingDone := onboardingDone s;
     queueInfo := queueInfo s; chat := chat s; draft := draft s;
     socketRef := socketRef s; pcRef := pcRef s;
     localStreamRef := localStreamRef s; localVideoRef := localVideoRef s;
     remoteVideoRef := remoteVideoRef s; pcs := v; out := out s |}.

Definition set_out (v : list OutEvent) (s : State) : State :=
  {| status := status s; role := role s; onboardingDone := onboardingDone s;
     queueInfo := queueInfo s; chat := chat s; draft := draft s;
     socketRef := socketRef s; pcRef := pcRef s;
     localStreamRef := localStreamRef s; localVideoRef := localVideoRef s;
     remoteVideoRef := remoteVideoRef s; pcs := pcs s; out := v |}.

(** [socket.emit(e)] on the socket the effect closed over. *)
Definition emit (e : OutEvent) (s : State) : State :=
  set_out (out s ++ [e]) s.

(** [socketRef.current?.emit(e)] *)
Definition emit_via_ref (e : OutEvent) (s : State) : State :=
  if socketRef s then emit e s else s.

(** Update of the transport object at index [p]. *)
Definition update_pc (p : nat) (f : PeerConnection -> PeerConnection)
    (s : State) : State :=
  set_pcs (alter f p (pcs s)) s.

(** ** Asynchronous functions

    An [async] function runs until its first [await] on a promise of the
    browser, and is resumed with the promise's settlement in whatever
    state the component has by then.  An [await] on a value that is
    already there resumes in a microtask, before any other event, and is
    not a suspension point here. *)

(** The promises the component awaits, indexed by what they resolve to. *)
Inductive Req : Type -> Type :=
| getUserMedia : Req MediaStream
| createOffer (pc : nat) : Req Sdp
| createAnswer (pc : nat) : Req Sdp
| setLocalDescription (pc : nat) (d : Sdp) : Req unit
| setRemoteDescription (pc : nat) (d : Sdp) : Req unit
| addIceCandidate (pc : nat) (c : Candidate) : Req unit.

Inductive Async (A : Type) : Type :=
| Done (s : State) (r : Err + A)
| Await {T : Type} (q : Req T) (s : State) (k : Err + T -> State -> Async A).

Arguments Done {A} s r.
Arguments Await {A T} q s k.

Definition Prog (A : Type) : Type := State -> Async A.

Fixpoint bindA {A B} (m : Async A) (f : A -> Prog B) : Async B :=
  match m with
  | Done s (inr a) => f a s
  | Done s (inl e) => Done s (inl e)
  | Await q s k => Await q s (fun r s' => bindA (k r s') f)
  end.

(** [try { m } catch { h }] *)
Fixpoint catchA {A} (m : Async A) (h : Err -> Prog A) : Async A :=
  match m with
  | Done s (inr a) => Done s (inr a)
  | Done s (inl e) => h e s
  | Await q s k => Await q s (fun r s' => catchA (k r s') h)
  end.

Definition ret {A} (a : A) : Prog A := fun s => Done s (inr a).
Definition throw {A} (e : Err) : Prog A := fun s => Done s (inl e).
Definition bind {A B} (m : Prog A) (f : A -> Prog B) : Prog B :=
  fun s => bindA (m s) f.
Definition try_catch {A} (m : Prog A) (h : Err -> Prog A) : Prog A :=
  fun s => catchA (m s) h.
(** A synchronous statement. *)
Definition exec (f : State -> State) : Prog unit := fun s => Done (f s) (inr tt).
(** [await q] *)
Definition await {T} (q : Req T) : Prog T :=
  fun s => Await q s (fun r s' => Done s' r).

Declare Scope prog_scope.
Delimit Scope prog_scope with prog.
Notation "x <- m ;; k" := (bind m (fun x => k))
  (at level 100, m at next level, right associativity) : prog_scope.
Notation "m ;; k" := (bind m (fun _ => k))
  (at level 100, right associativity) : prog_scope.
Open Scope prog_scope.

(** ** The component's functions *)

(** The two statements of [ensureLocalMedia] that follow its [await]:
    [localStreamRef.current = stream] and, when the local video element
    is there, [localVideoRef.current.srcObject = stream]. *)
Definition keep_stream (stream : MediaStream) (s : State) : State :=
  let s := set_localStreamRef (Some stream) s in
  match localVideoRef s with
  | Some _ => set_localVideoRef (Some {| srcObject := Some stream |}) s
  | None => s
  end.

(** [ensureLocalMedia] *)
Definition ensureLocalMedia : Prog MediaStream := fun s =>
  match localStreamRef s with
  | Some stream => ret stream s
  | None =>
      (stream <- await getUserMedia;;
       exec (keep_stream stream);;
       ret stream) s
  end.

(** The three assignments of [null] and [close()] of
    [cleanupPeerConnection], on the transport object. *)
Definition release_and_close (pc : PeerConnection) : PeerConnection :=
  {| closed := true; onicecandidate := false; ontrack := false;
     onconnectionstatechange := false; senders := senders pc;
     localDescription := localDescription pc;
     remoteDescription := remoteDescription pc;
     remoteCandidates := remoteCandidates pc;
     connectionState := cs_closed |}.

(** [cleanupPeerConnection] *)
Definition cleanupPeerConnection (s : State) : State :=
  let s :=
    match pcRef s with
    | Some p => set_pcRef None (update_pc p release_and_close s)
    | None => s
    end in
  let s :=
    match remoteVideoRef s with
    | Some _ => set_remoteVideoRef (Some {| srcObject := None |}) s
    | None => s
    end in
  setRole None s.

(** [resetConversationUI] *)
Definition resetConversationUI (s : State) : State :=
  setDraft "" (setChat [] s).

(** The senders of a transport after [tracks] of [stream] were added. *)
Definition add_senders (tracks : list Track) (stream : MediaStream)
    (pc : PeerConnection) : PeerConnection :=
  {| closed := closed pc; onicecandidate := onicecandidate pc;
     ontrack := ontrack pc;
     onconnectionstatechange := onconnectionstatechange pc;
     senders := senders pc ++ map (fun t => (t, streamId stream)) tracks;
     localDescription := localDescription pc;
     remoteDescription := remoteDescription pc;
     remoteCandidates := remoteCandidates pc;
     connectionState := connectionState pc |}.

(** [pc.addTrack(t, stream)]: the browser throws [InvalidStateError] on a
    closed connection. *)
Definition addTrack (p : nat) (t : Track) (stream : MediaStream) : Prog unit :=
  fun s =>
    match pcs s !! p with
    | Some pc =>
        if closed pc then throw (DOMException "InvalidStateError") s
        else exec (update_pc p (add_senders [t] stream)) s
    | None => ret tt s
    end.

(** [tracks.forEach((t) => pc.addTrack(t, stream))] *)
Fixpoint addTracks (p : nat) (tracks : list Track) (stream : MediaStream)
    : Prog unit :=
  match tracks with
  | [] => ret tt
  | t :: tracks => addTrack p t stream;; addTracks p tracks stream
  end.

(** The assignments to [pc.ontrack], [pc.onicecandidate] and
    [pc.onconnectionstatechange]. *)
Definition install_hooks (pc : PeerConnection) : PeerConnection :=
  {| closed := closed pc; onicecandidate := true; ontrack := true;
     onconnectionstatechange := true; senders := senders pc;
     localDescription := localDescription pc;
     remoteDescription := remoteDescription pc;
     remoteCandidates := remoteCandidates pc;
     connectionState := connectionState pc |}.

(** [createPeerConnection] *)
Definition createPeerConnection : Prog nat := fun s =>
  let pc := length (pcs s) in
  (exec (fun s => set_pcRef (Some pc) (set_pcs (pcs s ++ [new_pc]) s));;
   localStream <- ensureLocalMedia;;
   addTracks pc (getTracks localStream) localStream;;
   exec (update_pc pc install_hooks);;
   ret pc) s.

(** [start] *)
Definition start : Prog unit :=
  exec (setStatus "Requesting camera...");;
  _ <- ensureLocalMedia;;
  exec (setStatus "Searching match...");;
  exec resetConversationUI;;
  exec (setQueueInfo None);;
  exec (emit_via_ref emit_find).

(** [next] *)
Definition next (s : State) : State :=
  let s := setStatus "Next..." s in
  let s := cleanupPeerConnection s in
  let s := resetConversationUI s in
  let s := setQueueInfo None s in
  let s := emit_via_ref emit_next s in
  emit_via_ref emit_find s.

(** [stop] *)
Definition stop (s : State) : State :=
  let s := setStatus "Stopped" s in
  let s := cleanupPeerConnection s in
  let s := resetConversationUI s in
  let s := setQueueInfo None s in
  emit_via_ref emit_stop s.

(** ** The handlers registered by the effect *)

Definition role_str (r : Role) : string :=
  match r with
  | Some caller => "caller"
  | Some callee => "callee"
  | None => "null"
  end.

(** The body of [useEffect] up to the registration of the handlers;
    [clientId] is [localStorage.getItem(clientIdKey) ?? crypto.randomUUID()]. *)
Definition on_mount (clientId : string) (s : State) : State :=
  emit (emit_hello clientId) (set_socketRef true s).

Definition on_connect : State -> State := setStatus "Connected to signaling".
Definition on_welcome : State -> State := setStatus "Connected".
Definition on_reconnected : State -> State := setStatus "Reconnected".
Definition on_waiting : State -> State := setStatus "Waiting for partner...".

Definition on_queue_status (info : QueueInfo) : State -> State :=
  setQueueInfo (Some info).

Definition on_queue_timeout : State -> State :=
  setStatus "Still waiting... (no partner yet)".

Definition on_matched (r : Role) : Prog unit :=
  exec (setRole r);;
  exec (setQueueInfo None);;
  exec resetConversationUI;;
  exec (setStatus ("Matched as " ++ role_str r));;
  pc <- createPeerConnection;;
  match r with
  | Some caller =>
      offer <- await (createOffer pc);;
      await (setLocalDescription pc offer);;
      exec (emit (emit_rtc_offer offer))
  | _ => ret tt
  end.

Definition on_partner_left (s : State) : State :=
  let s := setStatus "Partner left. Waiting..." s in
  let s := cleanupPeerConnection s in
  let s := resetConversationUI s in
  emit emit_find s.

Definition on_reset (s : State) : State :=
  let s := setStatus "Reset" s in
  let s := cleanupPeerConnection s in
  resetConversationUI s.

Definition on_chat_message (msg : ChatPayload) (s : State) : State :=
  setChat (chat s ++ [{| id := msg_id msg; text := msg_text msg;
                         ts := msg_ts msg; mine := false |}]) s.

Definition on_rtc_offer (sdp : Sdp) : Prog unit :=
  pc <- (fun s => match pcRef s with
                  | Some pc => ret pc s
                  | None => createPeerConnection s
                  end);;
  await (setRemoteDescription pc sdp);;
  answer <- await (createAnswer pc);;
  await (setLocalDescription pc answer);;
  exec (emit (emit_rtc_answer answer)).

Definition on_rtc_answer (sdp : Sdp) : Prog unit := fun s =>
  match pcRef s with
  | None => ret tt s
  | Some pc => await (setRemoteDescription pc sdp) s
  end.

Definition on_rtc_ice (candidate : Candidate) : Prog unit := fun s =>
  match pcRef s with
  | None => ret tt s
  | Some pc =>
      try_catch (await (addIceCandidate pc candidate)) (fun _ => ret tt) s
  end.

(** *** The callbacks [createPeerConnection] installs on a transport *)

(** [pc.ontrack]: [const [remoteStream] = event.streams] *)
Definition pc_ontrack (streams : list MediaStream) (s : State) : State :=
  match remoteVideoRef s with
  | Some _ => set_remoteVideoRef (Some {| srcObject := head streams |}) s
  | None => s
  end.

(** [pc.onicecandidate] *)
Definition pc_onicecandidate (candidate : option Candidate) (s : State) : State :=
  match candidate with
  | Some c => emit_via_ref (emit_rtc_ice c) s
  | None => s
  end.

(** [pc.onconnectionstatechange], for the transport at index [p] *)
Definition pc_onconnectionstatechange (p : nat) (s : State) : State :=
  match pcs s !! p with
  | Some pc => setStatus ("RTC: " ++ connectionState_str (connectionState pc)) s
  | None => s
  end.

(** The call-to-action of the landing screen:
    [setOnboardingDone(true); start()].  The render that follows the
    click shows the call screen, which attaches the two video refs. *)
Definition attach_video_refs (s : State) : State :=
  let s := match localVideoRef s with
           | None => set_localVideoRef (Some {| srcObject := None |}) s
           | Some _ => s
           end in
  match remoteVideoRef s with
  | None => set_remoteVideoRef (Some {| srcObject := None |}) s
  | Some _ => s
  end.

(** ** The event loop *)

(** A suspended [async] call: the promise it awaits and the rest of it. *)
Inductive Task :=
| Pending {T : Type} (q : Req T) (k : Err + T -> State -> Async unit).

Record World := {
  state : State;
  tasks : list (option Task);
  unhandled : list Err;
}.

Definition boot : World :=
  {| state := initial; tasks := []; unhandled := [] |}.

(** How a promise settles. *)
Inductive Settlement :=
| rejected (e : Err)
| resolved
| resolved_sdp (d : Sdp)
| resolved_stream (m : MediaStream).

Definition answer {T} (q : Req T) (o : Settlement) : option (Err + T) :=
  match q in Req T return option (Err + T) with
  | getUserMedia =>
      match o with
      | rejected e => Some (inl e)
      | resolved_stream m => Some (inr m)
      | _ => None
      end
  | createOffer _ | createAnswer _ =>
      match o with
      | rejected e => Some (inl e)
      | resolved_sdp d => Some (inr d)
      | _ => None
      end
  | setLocalDescription _ _ | setRemoteDescription _ _ | addIceCandidate _ _ =>
      match o with
      | rejected e => Some (inl e)
      | resolved => Some (inr tt)
      | _ => None
      end
  end.

Definition set_localDescription (d : Sdp) (pc : PeerConnection) : PeerConnection :=
  {| closed := closed pc; onicecandidate := onicecandidate pc;
     ontrack := ontrack pc;
     onconnectionstatechange := onconnectionstatechange pc;
     senders := senders pc; localDescription := Some d;
     remoteDescription := remoteDescription pc;
     remoteCandidates := remoteCandidates pc;
     connectionState := connectionState pc |}.

Definition set_remoteDescription (d : Sdp) (pc : PeerConnection) : PeerConnection :=
  {| closed := closed pc; onicecandidate := onicecandidate pc;
     ontrack := ontrack pc;
     onconnectionstatechange := onconnectionstatechange pc;
     senders := senders pc; localDescription := localDescription pc;
     remoteDescription := Some d;
     remoteCandidates := remoteCandidates pc;
     connectionState := connectionState pc |}.

Definition add_remoteCandidate (c : Candidate) (pc : PeerConnection) : PeerConnection :=
  {| closed := closed pc; onicecandidate := onicecandidate pc;
     ontrack := ontrack pc;
     onconnectionstatechange := onconnectionstatechange pc;
     senders := senders pc; localDescription := localDescription pc;
     remoteDescription := remoteDescription pc;
     remoteCandidates := remoteCandidates pc ++ [c];
     connectionState := connectionState pc |}.

Definition set_connectionState (c : ConnectionState) (pc : PeerConnection) : PeerConnection :=
  {| closed := closed pc; onicecandidate := onicecandidate pc;
     ontrack := ontrack pc;
     onconnectionstatechange := onconnectionstatechange pc;
     senders := senders pc; localDescription := localDescription pc;
     remoteDescription := remoteDescription pc;
     remoteCandidates := remoteCandidates pc;
     connectionState := c |}.

(** What the browser has done to the transport when a promise resolves. *)
Definition committed {T} (q : Req T) (r : Err + T) (s : State) : State :=
  match r with
  | inl _ => s
  | inr _ =>
      match q with
      | setLocalDescription pc d => update_pc pc (set_localDescription d) s
      | setRemoteDescription pc d => update_pc pc (set_remoteDescription d) s
      | addIceCandidate pc c => update_pc pc (add_remoteCandidate c) s
      | _ => s
      end
  end.

(** Where an [async] call has got to: finished, rejected with nobody
    awaiting it, or suspended in slot [i]. *)
Definition settle_into (i : nat) (m : Async unit) (w : World) : World :=
  match m with
  | Done s (inr _) =>
      {| state := s; tasks := <[i := None]> (tasks w); unhandled := unhandled w |}
  | Done s (inl e) =>
      {| state := s; tasks := <[i := None]> (tasks w);
         unhandled := unhandled w ++ [e] |}
  | Await q s k =>
      {| state := s; tasks := <[i := Some (Pending q k)]> (tasks w);
         unhandled := unhandled w |}
  end.

(** A handler that is an [async] function is called and not awaited. *)
Definition call (m : Prog unit) (w : World) : World :=
  settle_into (length (tasks w)) (m (state w))
    {| state := state w; tasks := tasks w ++ [None]; unhandled := unhandled w |}.

Definition sync (f : State -> State) (w : World) : World :=
  {| state := f (state w); tasks := tasks w; unhandled := unhandled w |}.

Definition resume (i : nat) (o : Settlement) (w : World) : World :=
  match tasks w !! i with
  | Some (Some (Pending q k)) =>
      match answer q o with
      | Some r => settle_into i (k r (committed q r (state w))) w
      | None => w
      end
  | _ => w
  end.

Inductive Event :=
| mount (clientId : string)
| click_start
| op_start
| op_next
| op_stop
| socket_connect
| socket_welcome
| socket_reconnected
| socket_waiting
| socket_queue_status (info : QueueInfo)
| socket_queue_timeout
| socket_matched (r : Role)
| socket_partner_left
| socket_reset
| socket_chat_message (msg : ChatPayload)
| socket_rtc_offer (sdp : Sdp)
| socket_rtc_answer (sdp : Sdp)
| socket_rtc_ice (candidate : Candidate)
| pc_icecandidate (p : nat) (candidate : option Candidate)
| pc_track (p : nat) (streams : list MediaStream)
| pc_connectionstatechange (p : nat) (c : ConnectionState)
| settle (task : nat) (o : Settlement).

(** Socket events reach the handlers once the effect has run. *)
Definition inbound (h : World -> World) (w : World) : World :=
  if socketRef (state w) then h w else w.

(** A transport calls back only while it is open and the handler
    property is set. *)
Definition callback (p : nat) (hook : PeerConnection -> bool)
    (h : State -> State) (w : World) : World :=
  match pcs (state w) !! p with
  | Some pc => if negb (closed pc) && hook pc then sync h w else w
  | None => w
  end.

Definition step (w : World) (e : Event) : World :=
  match e with
  | mount clientId => sync (on_mount clientId) w
  | click_start =>
      sync attach_video_refs (call start (sync (setOnboardingDone true) w))
  | op_start => call start w
  | op_next => sync next w
  | op_stop => sync stop w
  | socket_connect => inbound (sync on_connect) w
  | socket_welcome => inbound (sync on_welcome) w
  | socket_reconnected => inbound (sync on_reconnected) w
  | socket_waiting => inbound (sync on_waiting) w
  | socket_queue_status info => inbound (sync (on_queue_status info)) w
  | socket_queue_timeout => inbound (sync on_queue_timeout) w
  | socket_matched r => inbound (call (on_matched r)) w
  | socket_partner_left => inbound (sync on_partner_left) w
  | socket_reset => inbound (sync on_reset) w
  | socket_chat_message msg => inbound (sync (on_chat_message msg)) w
  | socket_rtc_offer sdp => inbound (call (on_rtc_offer sdp)) w
  | socket_rtc_answer sdp => inbound (call (on_rtc_answer sdp)) w
  | socket_rtc_ice c => inbound (call (on_rtc_ice c)) w
  | pc_icecandidate p c => callback p onicecandidate (pc_onicecandidate c) w
  | pc_track p streams => callback p ontrack (pc_ontrack streams) w
  | pc_connectionstatechange p c =>
      callback p onconnectionstatechange (pc_onconnectionstatechange p)
        (match pcs (state w) !! p with
         | Some pc =>
             if closed pc then w
             else sync (update_pc p (set_connectionState c)) w
         | None => w
         end)
  | settle i o => resume i o w
  end.

Definition run (w : World) (es : list Event) : World := fold_left step es w.

(** ** Derived forms used in the statements *)

(** The transport [createPeerConnection] returns when nothing closes it
    on the way: the tracks of the local stream attached and the three
    callbacks installed. *)
Definition opened (stream : MediaStream) : PeerConnection :=
  install_hooks (add_senders (getTracks stream) stream new_pc).

(** The state in which [createPeerConnection] first awaits or returns. *)
Definition allocate (pc : PeerConnection) (s : State) : State :=
  set_pcRef (Some (length (pcs s))) (set_pcs (pcs s ++ [pc]) s).

(** The state in which a call hands control back to the event loop. *)
Definition now {A} (m : Async A) : State :=
  match m with
  | Done s _ => s
  | Await _ s _ => s
  end.

(** [on_success m P]: whenever [m] runs to a successful end, whatever
    its promises resolved to and whatever the component's state was at
    each resumption, [P] holds of the final state and result. *)
Fixpoint on_success {A} (m : Async A) (P : State -> A -> Prop) : Prop :=
  match m with
  | Done s (inr a) => P s a
  | Done _ (inl _) => True
  | Await _ _ k => forall r s', on_success (k r s') P
  end.

(** The statements of [start] that follow its [await]. *)
Definition searching (s : State) : State :=
  emit_via_ref emit_find
    (setQueueInfo None
       (resetConversationUI (setStatus "Searching match..." s))).

(** The synchronous head of the [matched] handler. *)
Definition matched_prefix (r : Role) (s : State) : State :=
  setStatus ("Matched as " ++ role_str r)
    (resetConversationUI (setQueueInfo None (setRole r s))).

(** The [if (role === "caller")] block of the [matched] handler. *)
Definition offer_side (r : Role) (pc : nat) : Prog unit :=
  match r with
  | Some caller =>
      offer <- await (createOffer pc);;
      await (setLocalDescription pc offer);;
      exec (emit (emit_rtc_offer offer))
  | _ => ret tt
  end.

(** The rest of the [rtc-offer] handler once it has its transport. *)
Definition answer_side (sdp : Sdp) (pc : nat) : Prog unit :=
  await (setRemoteDescription pc sdp);;
  answer <- await (createAnswer pc);;
  await (setLocalDescription pc answer);;
  exec (emit (emit_rtc_answer answer)).

(** ** Sample inputs *)

Definition cam : MediaStream := {| streamId := 7; getTracks := [0; 1] |}.

Definition denied : Err := DOMException "NotAllowedError".

Definition third_in_line : QueueInfo :=
  {| position := 3; etaSec := 40; waitedSec := 5 |}.

Definition hi : ChatPayload :=
  {| msg_id := "m1"; msg_text := "hi"; msg_ts := 1700000000000 |}.

(** The component after its effect has run. *)
Definition mounted : World := run boot [mount "client-1"].

(** Mounted, camera granted, searching. *)
Definition in_queue : World :=
  run mounted [click_start; settle 0 (resolved_stream cam)].

(** In the queue, then matched as caller, offer sent. *)
Definition calling : World :=
  run in_queue [socket_matched (Some caller);
                settle 1 (resolved_sdp "offer-1"); settle 1 resolved].

(** ** Live transports *)

(** A transport is live from its construction to its [close()]. *)
Definition live (pc : PeerConnection) : bool := negb (closed pc).

(** The transports that were constructed and not closed. *)
Definition live_transports (s : State) : list PeerConnection :=
  List.filter live (pcs s).

(** ** The rest of the component *)

(** [const isInCall = role !== null && pcRef.current !== null] *)
Definition isInCall (s : State) : bool :=
  match role s with Some _ => true | None => false end
  && match pcRef s with Some _ => true | None => false end.

(** What the status pill of the top bar shows:
    [queueInfo ? <the queue line> : status]. *)
Inductive Pill :=
| queue_line (info : QueueInfo)
| status_line (text : string).

Definition statusPill (s : State) : Pill :=
  match queueInfo s with
  | Some info => queue_line info
  | None => status_line (status s)
  end.

(** ** Invariants of runs *)

(** [preserves I m]: [I] holds whenever the call [m] hands control back,
    provided it holds whenever the call is resumed. *)
Fixpoint preserves {A} (I : State -> Prop) (m : Async A) : Prop :=
  match m with
  | Done s _ => I s
  | Await _ s k => I s /\ forall r s', I s' -> preserves I (k r s')
  end.

Definition task_keeps (I : State -> Prop) (t : option Task) : Prop :=
  match t with
  | Some (Pending _ k) => forall r s', I s' -> preserves I (k r s')
  | None => True
  end.

Definition world_keeps (I : State -> Prop) (w : World) : Prop :=
  I (state w) /\ Forall (task_keeps I) (tasks w).

(** [guarded G w es]: along the run of [es] from [w], every [matched]
    event arrives in a state that satisfies [G]. *)
Fixpoint guarded (G : State -> Prop) (w : World) (es : list Event) : Prop :=
  match es with
  | [] => True
  | e :: es =>
      match e with
      | socket_matched _ => G (state w)
      | _ => True
      end
      /\ guarded G (step w e) es
  end.

(** [pcRef] refers to a transport of the store that is open, and a role
    comes with a transport. *)
Definition session_consistent (s : State) : Prop :=
  (forall p, pcRef s = Some p ->
     exists pc, pcs s !! p = Some pc /\ closed pc = false)
  /\ (role s <> None -> pcRef s <> None).

(** The only transport that may be open is the one in [pcRef]. *)
Definition only_pcRef_live (s : State) : Prop :=
  forall i pc, pcs s !! i = Some pc -> closed pc = false -> pcRef s = Some i.

(** ** Sending a chat message *)

Section SendChat.
(** [String.prototype.trim] of the browser. *)
Variable trim : string -> string.

(** [sendChat], as the render created it: [draft] is the constant the
    render read from the state, so a call sees the draft of its render
    and not what an earlier call of the same render has set; the chat is
    updated through [setChat((prev) => ...)] and reads the current one.
    [uuid] is [crypto.randomUUID()] and [now_ms] is [Date.now()].  The
    second component is what
    [socketRef.current?.emit("chat-message", msg)] sent, if anything. *)
Definition sendChat (draft : string) (uuid : string) (now_ms : Z) (s : State)
    : State * option ChatPayload :=
  let text := trim draft in
  match text with
  | EmptyString => (s, None)
  | _ =>
      let msg := {| msg_id := uuid; msg_text := text; msg_ts := now_ms |} in
      let sent := if socketRef s then Some msg else None in
      let s := setChat (chat s ++ [{| id := uuid; text := text; ts := now_ms;
                                      mine := true |}]) s in
      (setDraft "" s, sent)
  end.
End SendChat.

(** ** Muting *)

(** [MediaStreamTrack.kind] *)
Inductive TrackKind := audio | video.

(** [micOn] and [camOn] of the component. *)
Record Controls := {
  micOn : bool;
  camOn : bool;
}.

Section Tracks.
(** The kind of each track, and the [enabled] property of the track
    objects as a store. *)
Variable kind : Track -> TrackKind.

Definition getAudioTracks (stream : MediaStream) : list Track :=
  List.filter (fun t => match kind t with audio => true | video => false end)
    (getTracks stream).

Definition getVideoTracks (stream : MediaStream) : list Track :=
  List.filter (fun t => match kind t with video => true | audio => false end)
    (getTracks stream).

(** [tracks.forEach((t) => (t.enabled = v))] *)
Definition set_enabled (tracks : list Track) (v : bool)
    (enabled : Track -> bool) : Track -> bool :=
  fun t => if existsb (Nat.eqb t) tracks then v else enabled t.

(** [toggleMic] *)
Definition toggleMic (s : State) (c : Controls) (enabled : Track -> bool)
    : Controls * (Track -> bool) :=
  match localStreamRef s with
  | None => (c, enabled)
  | Some stream =>
      let next := negb (micOn c) in
      ({| micOn := next; camOn := camOn c |},
       set_enabled (getAudioTracks stream) next enabled)
  end.

(** [toggleCam] *)
Definition toggleCam (s : State) (c : Controls) (enabled : Track -> bool)
    : Controls * (Track -> bool) :=
  match localStreamRef s with
  | None => (c, enabled)
  | Some stream =>
      let next := negb (camOn c) in
      ({| micOn := micOn c; camOn := next |},
       set_enabled (getVideoTracks stream) next enabled)
  end.
End Tracks.

(** * Properties *)

(** ** The store of transports *)

Section Snoc.
Context {A : Type}.
Implicit Types (l : list A) (x y : A).

Lemma lookup_snoc l x : (l ++ [x]) !! length l = Some x.
Proof. now rewrite (list_lookup_middle l [] x). Qed.

Lemma alter_snoc (f : A -> A) l x :
  alter f (length l) (l ++ [x]) = l ++ [f x].
Proof.
  rewrite alter_app_r_alt by lia. now rewrite Nat.sub_diag.
Qed.

Lemma insert_snoc l x y : <[length l := y]> (l ++ [x]) = l ++ [y].
Proof.
  rewrite insert_app_r_alt by lia. now rewrite Nat.sub_diag.
Qed.
End Snoc.

Lemma update_pc_update_pc p f g s :
  update_pc p f (update_pc p g s) = update_pc p (f ∘ g) s.
Proof.
  unfold update_pc. cbn. now rewrite <- list_alter_alter_eq.
Qed.

Lemma update_pc_ext p f g s :
  (forall pc, f pc = g pc) -> update_pc p f s = update_pc p g s.
Proof.
  intros E. unfold update_pc. f_equal.
  apply list_alter_ext; auto.
Qed.

Lemma add_senders_cons t tracks stream pc :
  add_senders tracks stream (add_senders [t] stream pc)
  = add_senders (t :: tracks) stream pc.
Proof.
  unfold add_senders. cbn. now rewrite <- app_assoc.
Qed.

Lemma add_senders_nil stream pc : add_senders [] stream pc = pc.
Proof.
  destruct pc. unfold add_senders. cbn. now rewrite app_nil_r.
Qed.

(** On an open transport every [addTrack] of the loop succeeds. *)
Lemma addTracks_open tracks : forall p stream s pc,
  pcs s !! p = Some pc -> closed pc = false ->
  addTracks p tracks stream s
  = Done (update_pc p (add_senders tracks stream) s) (inr tt).
Proof.
  induction tracks as [|t tracks IH]; intros p stream s pc Hp Hc.
  - cbn. unfold ret. f_equal. unfold update_pc.
    rewrite list_alter_id by apply add_senders_nil. now destruct s.
  - cbn [addTracks]. unfold bind, addTrack. rewrite Hp, Hc. cbn.
    rewrite (IH p stream _ (add_senders [t] stream pc)).
    + rewrite update_pc_update_pc. f_equal.
      apply update_pc_ext. intros pc'. apply add_senders_cons.
    + cbn. rewrite list_lookup_alter_eq, Hp. reflexivity.
    + exact Hc.
Qed.

(** On a closed transport the first [addTrack] throws. *)
Lemma addTracks_closed t tracks p stream s pc :
  pcs s !! p = Some pc -> closed pc = true ->
  addTracks p (t :: tracks) stream s
  = Done s (inl (DOMException "InvalidStateError")).
Proof.
  intros Hp Hc. cbn [addTracks]. unfold bind, addTrack.
  now rewrite Hp, Hc.
Qed.

(** With the local stream cached, [createPeerConnection] completes
    without suspending. *)
Lemma createPeerConnection_cached s stream :
  localStreamRef s = Some stream ->
  createPeerConnection s
  = Done (allocate (opened stream) s) (inr (length (pcs s))).
Proof.
  intros H. unfold createPeerConnection, bind, exec, ensureLocalMedia.
  cbn. rewrite H. cbn.
  rewrite (addTracks_open _ _ _ _ new_pc);
    [| cbn; apply lookup_snoc | reflexivity ].
  cbn. unfold ret. f_equal.
  unfold allocate, opened, update_pc, set_pcRef, set_pcs. cbn.
  now rewrite !alter_snoc.
Qed.

(** Without a cached stream it allocates the transport, publishes it in
    [pcRef] and awaits the camera; it fails with the camera, and
    otherwise finishes the transport if it is still open. *)
Lemma createPeerConnection_acquiring s :
  localStreamRef s = None ->
  exists k,
    createPeerConnection s = Await getUserMedia (allocate new_pc s) k
    /\ (forall e s', k (inl e) s' = Done s' (inl e))
    /\ (forall stream s' pc,
          pcs s' !! length (pcs s) = Some pc -> closed pc = false ->
          k (inr stream) s'
          = Done (update_pc (length (pcs s))
                    (install_hooks ∘ add_senders (getTracks stream) stream)
                    (keep_stream stream s'))
                 (inr (length (pcs s)))).
Proof.
  intros H. unfold createPeerConnection, bind, exec, ensureLocalMedia.
  cbn. rewrite H. cbn. eexists. split; [reflexivity|]. split.
  - reflexivity.
  - intros stream s' pc Hp Hc. cbn.
    rewrite (addTracks_open _ _ _ _ pc); [| | exact Hc].
    + cbn. now rewrite update_pc_update_pc.
    + unfold keep_stream. destruct (localVideoRef _); exact Hp.
Qed.

(** ** The event loop *)

Lemma call_done m w s :
  m (state w) = Done s (inr tt) ->
  call m w
  = {| state := s; tasks := tasks w ++ [None]; unhandled := unhandled w |}.
Proof.
  intros E. unfold call. rewrite E. cbn. now rewrite insert_snoc.
Qed.

Lemma call_thrown m w s e :
  m (state w) = Done s (inl e) ->
  call m w
  = {| state := s; tasks := tasks w ++ [None];
       unhandled := unhandled w ++ [e] |}.
Proof.
  intros E. unfold call. rewrite E. cbn. now rewrite insert_snoc.
Qed.

Lemma call_await m w {T} (q : Req T) s k :
  m (state w) = Await q s k ->
  call m w
  = {| state := s; tasks := tasks w ++ [Some (Pending q k)];
       unhandled := unhandled w |}.
Proof.
  intros E. unfold call. rewrite E. cbn. now rewrite insert_snoc.
Qed.

Lemma run_cons w e es : run w (e :: es) = run (step w e) es.
Proof. reflexivity. Qed.

(** Settling the promise that the most recent call awaits. *)
Lemma resume_done st ts un {T} (q : Req T) k o r s :
  answer q o = Some r ->
  k r (committed q r st) = Done s (inr tt) ->
  resume (length ts) o
    {| state := st; tasks := ts ++ [Some (Pending q k)]; unhandled := un |}
  = {| state := s; tasks := ts ++ [None]; unhandled := un |}.
Proof.
  intros Ha E. unfold resume. cbn. rewrite lookup_snoc, Ha, E. cbn.
  now rewrite insert_snoc.
Qed.

Lemma resume_thrown st ts un {T} (q : Req T) k o r s e :
  answer q o = Some r ->
  k r (committed q r st) = Done s (inl e) ->
  resume (length ts) o
    {| state := st; tasks := ts ++ [Some (Pending q k)]; unhandled := un |}
  = {| state := s; tasks := ts ++ [None]; unhandled := un ++ [e] |}.
Proof.
  intros Ha E. unfold resume. cbn. rewrite lookup_snoc, Ha, E. cbn.
  now rewrite insert_snoc.
Qed.

Lemma resume_await st ts un {T U} (q : Req T) k o r s (q' : Req U) k' :
  answer q o = Some r ->
  k r (committed q r st) = Await q' s k' ->
  resume (length ts) o
    {| state := st; tasks := ts ++ [Some (Pending q k)]; unhandled := un |}
  = {| state := s; tasks := ts ++ [Some (Pending q' k')]; unhandled := un |}.
Proof.
  intros Ha E. unfold resume. cbn. rewrite lookup_snoc, Ha, E. cbn.
  now rewrite insert_snoc.
Qed.

(** ** Teardown *)

Lemma cleanupPeerConnection_pcRef s : pcRef (cleanupPeerConnection s) = None.
Proof.
  unfold cleanupPeerConnection.
  destruct (pcRef s) eqn:E; cbn; destruct (remoteVideoRef s); cbn; auto.
Qed.

Lemma cleanupPeerConnection_role s : role (cleanupPeerConnection s) = None.
Proof. reflexivity. Qed.

Lemma cleanupPeerConnection_pcs s :
  pcs (cleanupPeerConnection s)
  = match pcRef s with
    | Some p => alter release_and_close p (pcs s)
    | None => pcs s
    end.
Proof.
  unfold cleanupPeerConnection.
  destruct (pcRef s); cbn; destruct (remoteVideoRef s); reflexivity.
Qed.

Lemma cleanupPeerConnection_out s : out (cleanupPeerConnection s) = out s.
Proof.
  unfold cleanupPeerConnection.
  destruct (pcRef s); cbn; destruct (remoteVideoRef s); reflexivity.
Qed.

Lemma cleanupPeerConnection_status s :
  status (cleanupPeerConnection s) = status s.
Proof.
  unfold cleanupPeerConnection.
  destruct (pcRef s); cbn; destruct (remoteVideoRef s); reflexivity.
Qed.

(** The transport that [pcRef] held is closed with its callbacks
    released. *)
Lemma cleanupPeerConnection_closes s p pc :
  pcRef s = Some p -> pcs s !! p = Some pc ->
  pcs (cleanupPeerConnection s) !! p = Some (release_and_close pc).
Proof.
  intros Hr Hp. rewrite cleanupPeerConnection_pcs, Hr.
  now rewrite list_lookup_alter_eq, Hp.
Qed.

(** Teardown is idempotent. *)
Lemma cleanupPeerConnection_idempotent s :
  cleanupPeerConnection (cleanupPeerConnection s) = cleanupPeerConnection s.
Proof.
  unfold cleanupPeerConnection.
  destruct s as [st ro ob qi ch dr so [p|] ls lv [rv|] ps ou]; reflexivity.
Qed.

(** A closed transport calls nothing back. *)
Lemma callback_closed w p pc hook h :
  pcs (state w) !! p = Some pc -> closed pc = true ->
  callback p hook h w = w.
Proof.
  intros Hp Hc. unfold callback. now rewrite Hp, Hc.
Qed.

(** ** What the asynchronous functions do between their awaits *)

Lemma start_cached s stream :
  localStreamRef s = Some stream ->
  start s = Done (searching (setStatus "Requesting camera..." s)) (inr tt).
Proof.
  intros H. unfold start, bind, exec, ensureLocalMedia. cbn.
  now rewrite H.
Qed.

Lemma start_acquiring s :
  localStreamRef s = None ->
  exists k,
    start s = Await getUserMedia (setStatus "Requesting camera..." s) k
    /\ (forall e s', k (inl e) s' = Done s' (inl e))
    /\ (forall stream s',
          k (inr stream) s' = Done (searching (keep_stream stream s')) (inr tt)).
Proof.
  intros H. unfold start, bind, exec, ensureLocalMedia. cbn.
  rewrite H. cbn. eexists. repeat split.
Qed.

Lemma searching_fields s :
  status (searching s) = "Searching match..."
  /\ chat (searching s) = [] /\ draft (searching s) = ""
  /\ queueInfo (searching s) = None
  /\ localStreamRef (searching s) = localStreamRef s
  /\ pcRef (searching s) = pcRef s /\ pcs (searching s) = pcs s
  /\ out (searching s)
     = if socketRef s then out s ++ [emit_find] else out s.
Proof.
  unfold searching, emit_via_ref. cbn.
  destruct (socketRef s); cbn; repeat split.
Qed.

Lemma keep_stream_fields stream s :
  localStreamRef (keep_stream stream s) = Some stream
  /\ socketRef (keep_stream stream s) = socketRef s
  /\ out (keep_stream stream s) = out s
  /\ pcs (keep_stream stream s) = pcs s
  /\ pcRef (keep_stream stream s) = pcRef s
  /\ role (keep_stream stream s) = role s.
Proof.
  unfold keep_stream. cbn. destruct (localVideoRef s); cbn; repeat split.
Qed.

(** How the fields read through the updates of a negotiation. *)
Lemma role_emit e s : role (emit e s) = role s.
Proof. reflexivity. Qed.
Lemma pcRef_emit e s : pcRef (emit e s) = pcRef s.
Proof. reflexivity. Qed.
Lemma pcs_emit e s : pcs (emit e s) = pcs s.
Proof. reflexivity. Qed.
Lemma out_emit e s : out (emit e s) = out s ++ [e].
Proof. reflexivity. Qed.
Lemma role_update_pc p f s : role (update_pc p f s) = role s.
Proof. reflexivity. Qed.
Lemma pcRef_update_pc p f s : pcRef (update_pc p f s) = pcRef s.
Proof. reflexivity. Qed.
Lemma pcs_update_pc p f s : pcs (update_pc p f s) = alter f p (pcs s).
Proof. reflexivity. Qed.
Lemma out_update_pc p f s : out (update_pc p f s) = out s.
Proof. reflexivity. Qed.
Lemma role_keep_stream m s : role (keep_stream m s) = role s.
Proof. apply keep_stream_fields. Qed.
Lemma pcRef_keep_stream m s : pcRef (keep_stream m s) = pcRef s.
Proof. apply keep_stream_fields. Qed.
Lemma pcs_keep_stream m s : pcs (keep_stream m s) = pcs s.
Proof. apply keep_stream_fields. Qed.
Lemma out_keep_stream m s : out (keep_stream m s) = out s.
Proof. apply keep_stream_fields. Qed.

Create Rewrite HintDb fields.
#[global] Hint Rewrite
  role_emit pcRef_emit pcs_emit out_emit
  role_update_pc pcRef_update_pc pcs_update_pc out_update_pc
  role_keep_stream pcRef_keep_stream pcs_keep_stream out_keep_stream
  : fields.

Lemma on_matched_unfold r s :
  on_matched r s
  = bindA (createPeerConnection (matched_prefix r s)) (offer_side r).
Proof. reflexivity. Qed.

Lemma offer_side_caller pc s :
  exists k1,
    offer_side (Some caller) pc s = Await (createOffer pc) s k1
    /\ (forall e s1, k1 (inl e) s1 = Done s1 (inl e))
    /\ (forall offer s1, exists k2,
          k1 (inr offer) s1 = Await (setLocalDescription pc offer) s1 k2
          /\ (forall e s2, k2 (inl e) s2 = Done s2 (inl e))
          /\ (forall s2,
                k2 (inr tt) s2
                = Done (emit (emit_rtc_offer offer) s2) (inr tt))).
Proof.
  eexists. split; [reflexivity|]. split; [reflexivity|].
  intros offer s1. eexists. repeat split.
Qed.

Lemma offer_side_other r pc s :
  r <> Some caller -> offer_side r pc s = Done s (inr tt).
Proof.
  destruct r as [[|]|]; [congruence| |]; reflexivity.
Qed.

Lemma on_rtc_offer_unfold sdp s :
  on_rtc_offer sdp s
  = match pcRef s with
    | Some pc => answer_side sdp pc s
    | None => bindA (createPeerConnection s) (answer_side sdp)
    end.
Proof.
  unfold on_rtc_offer, bind. destruct (pcRef s); reflexivity.
Qed.

Lemma answer_side_protocol sdp pc s :
  exists k1,
    answer_side sdp pc s = Await (setRemoteDescription pc sdp) s k1
    /\ (forall e s1, k1 (inl e) s1 = Done s1 (inl e))
    /\ (forall s1, exists k2,
          k1 (inr tt) s1 = Await (createAnswer pc) s1 k2
          /\ (forall e s2, k2 (inl e) s2 = Done s2 (inl e))
          /\ (forall a s2, exists k3,
                k2 (inr a) s2 = Await (setLocalDescription pc a) s2 k3
                /\ (forall e s3, k3 (inl e) s3 = Done s3 (inl e))
                /\ (forall s3,
                      k3 (inr tt) s3
                      = Done (emit (emit_rtc_answer a) s3) (inr tt)))).
Proof.
  eexists. split; [reflexivity|]. split; [reflexivity|].
  intros s1. eexists. split; [reflexivity|]. split; [reflexivity|].
  intros a s2. eexists. repeat split.
Qed.

Lemma on_rtc_answer_protocol sdp s pc :
  pcRef s = Some pc ->
  exists k,
    on_rtc_answer sdp s = Await (setRemoteDescription pc sdp) s k
    /\ (forall r s', k r s' = Done s' r).
Proof.
  intros H. unfold on_rtc_answer. rewrite H. eexists. split; reflexivity.
Qed.

Lemma on_rtc_ice_protocol c s pc :
  pcRef s = Some pc ->
  exists k,
    on_rtc_ice c s = Await (addIceCandidate pc c) s k
    /\ (forall r s', k r s' = Done s' (inr tt)).
Proof.
  intros H. unfold on_rtc_ice. rewrite H. eexists. split; [reflexivity|].
  intros [e|[]] s'; reflexivity.
Qed.

Arguments createPeerConnection : simpl never.
Arguments offer_side : simpl never.
Arguments answer_side : simpl never.
Arguments cleanupPeerConnection : simpl never.

(** ** One live Session at a time *)

(** The [matched] handler never touches the transports that exist
    already: the one [pcRef] held stays as it was, open, and [pcRef]
    moves on to the new one. *)
Lemma on_matched_keeps_transports r s p pc :
  pcs s !! p = Some pc ->
  pcs (now (on_matched r s)) !! p = Some pc
  /\ pcRef (now (on_matched r s)) = Some (length (pcs s)).
Proof.
  intros Hp. rewrite on_matched_unfold.
  assert (Hl : forall x, (pcs s ++ [x]) !! p = Some pc)
    by (intros x; now apply lookup_app_l_Some).
  destruct (localStreamRef s) as [stream|] eqn:E.
  - rewrite (createPeerConnection_cached _ stream) by exact E.
    cbn [bindA]. destruct r as [[|]|].
    + destruct (offer_side_caller (length (pcs (matched_prefix (Some caller) s)))
                  (allocate (opened stream) (matched_prefix (Some caller) s)))
        as (k & -> & _).
      cbn. auto.
    + rewrite offer_side_other by congruence. cbn. auto.
    + rewrite offer_side_other by congruence. cbn. auto.
  - destruct (createPeerConnection_acquiring (matched_prefix r s))
      as (k & -> & _); [exact E|].
    cbn. auto.
Qed.

(** The same through a race the server cannot prevent: after [next], an
    offer of the previous partner that was still on its way makes the
    [rtc-offer] handler construct a transport; the [matched] event of the
    new pairing then constructs another one over it. *)
Lemma late_offer_then_matched_two_live_transports :
  let s := state (run calling [op_next; socket_rtc_offer "late-offer";
                               socket_matched (Some callee)]) in
  pcRef s = Some 2
  /\ (closed <$> pcs s) = [true; false; false]
  /\ (onicecandidate <$> pcs s) = [false; true; true]
  /\ length (live_transports s) = 2.
Proof.
  vm_compute. repeat split; reflexivity.
Qed.

(** C1 (the code departs from the claim): after [start] and a first
    [matched], a second [matched] constructs a second transport while
    the first is still open with its callbacks installed; [pcRef] now
    holds the second, nothing refers to the first any more, and two
    transports are live.  No teardown runs on the [matched] path. *)
Theorem matched_twice_two_live_transports :
  let s := state (run calling [socket_matched (Some callee)]) in
  pcRef s = Some 1
  /\ role s = Some callee
  /\ pcs s !! 0 = Some (set_localDescription "offer-1" (opened cam))
  /\ live (set_localDescription "offer-1" (opened cam)) = true
  /\ onicecandidate (set_localDescription "offer-1" (opened cam)) = true
  /\ length (live_transports s) = 2.
Proof.
  vm_compute. repeat split; reflexivity.
Qed.

(** ** Failure and success of [start] *)

(** C2, counterexample: with the camera denied, the status after the
    failure is the one shown while the request was pending, and the
    rejection of [start] reaches the event loop uncaught. *)
Lemma start_failure_not_reported :
  let pending := run mounted [op_start] in
  let failed := run pending [settle 0 (rejected denied)] in
  status (state pending) = "Requesting camera..."
  /\ status (state failed) = "Requesting camera..."
  /\ status (state failed) <> "Idle"
  /\ unhandled failed = [denied].
Proof.
  vm_compute. repeat split; try reflexivity. discriminate.
Qed.

(** C2, amended: a failed acquisition is not caught.  [start] rejects
    with the error, the state keeps the status ["Requesting camera..."]
    and is otherwise untouched (no stream cached, nothing emitted), and a
    later [start] asks for the camera again.  When the acquisition
    succeeds, [start] caches the stream, sets ["Searching match..."],
    clears chat, draft and queue, and emits [find] on the socket. *)
Theorem start_outcomes (w : World) :
  localStreamRef (state w) = None ->
  let i := length (tasks w) in
  let asked := setStatus "Requesting camera..." (state w) in
  (forall e,
     let w' := run w [op_start; settle i (rejected e)] in
     state w' = asked /\ unhandled w' = unhandled w ++ [e])
  /\ (forall stream,
        let w' := run w [op_start; settle i (resolved_stream stream)] in
        state w' = searching (keep_stream stream asked)
        /\ status (state w') = "Searching match..."
        /\ chat (state w') = [] /\ draft (state w') = ""
        /\ queueInfo (state w') = None
        /\ (socketRef (state w) = true ->
            out (state w') = out (state w) ++ [emit_find])
        /\ unhandled w' = unhandled w)
  /\ (forall e stream,
        let w' := run w [op_start; settle i (rejected e);
                         op_start; settle (S i) (resolved_stream stream)] in
        state w' = searching (keep_stream stream asked)
        /\ localStreamRef (state w') = Some stream
        /\ unhandled w' = unhandled w ++ [e]).
Proof.
  intros H i asked.
  destruct (start_acquiring (state w) H) as (k & Hk & Hfail & Hok).
  assert (Hfailed : forall e,
    run w [op_start; settle i (rejected e)]
    = {| state := asked; tasks := tasks w ++ [None];
         unhandled := unhandled w ++ [e] |}).
  { intros e. unfold run. cbn [fold_left step].
    rewrite (call_await _ _ _ _ _ Hk).
    now apply resume_thrown with (r := inl e). }
  assert (Hgranted : forall stream,
    run w [op_start; settle i (resolved_stream stream)]
    = {| state := searching (keep_stream stream asked);
         tasks := tasks w ++ [None]; unhandled := unhandled w |}).
  { intros stream. unfold run. cbn [fold_left step].
    rewrite (call_await _ _ _ _ _ Hk).
    now apply resume_done with (r := inr stream). }
  split; [|split].
  - intros e w'. subst w'. rewrite Hfailed. auto.
  - intros stream w'. subst w'. rewrite Hgranted. cbn [state unhandled].
    destruct (searching_fields (keep_stream stream asked))
      as (Hst & Hch & Hdr & Hq & _ & _ & _ & Hout).
    destruct (keep_stream_fields stream asked) as (_ & Hso & Hou & _).
    repeat split; auto.
    intros Hs. rewrite Hout, Hso, Hou. cbn. now rewrite Hs.
  - intros e stream w'. subst w'.
    change (run w [op_start; settle i (rejected e); op_start;
                   settle (S i) (resolved_stream stream)])
      with (run (run w [op_start; settle i (rejected e)])
              [op_start; settle (S i) (resolved_stream stream)]).
    rewrite Hfailed.
    set (w1 := {| state := asked; tasks := tasks w ++ [None];
                  unhandled := unhandled w ++ [e] |}).
    destruct (start_acquiring asked H) as (k' & Hk' & _ & Hok').
    unfold run. cbn [fold_left step].
    rewrite (call_await start w1 getUserMedia _ _ Hk').
    replace (S i) with (length (tasks w1))
      by (subst w1 i; cbn; rewrite length_app; cbn; lia).
    erewrite resume_done with (r := inr stream);
      [| reflexivity | apply Hok'].
    cbn [state unhandled]. repeat split.
    match goal with
    | |- localStreamRef (searching ?s) = _ =>
        destruct (searching_fields s) as (_ & _ & _ & _ & -> & _)
    end.
    apply keep_stream_fields.
Qed.

Lemma start_outcomes_witness :
  let w' := run mounted [op_start; settle 0 (resolved_stream cam)] in
  status (state w') = "Searching match..."
  /\ out (state w') = [emit_hello "client-1"; emit_find].
Proof.
  destruct (start_outcomes mounted eq_refl) as (_ & Hok & _).
  destruct (Hok cam) as (_ & Hst & _ & _ & _ & Hout & _).
  split; [exact Hst | exact (Hout eq_refl)].
Defined.

(** ** [next] with no Session *)

(** C3, counterexample: right after mounting, with no transport and no
    match, [next] emits a [next] notification before the [find]. *)
Lemma next_without_session_emits_next :
  pcRef (state mounted) = None
  /\ out (state (run mounted [op_next]))
     = out (state mounted) ++ [emit_next; emit_find].
Proof.
  vm_compute. split; reflexivity.
Qed.

(** C3, amended: with no transport in [pcRef], [next] changes no
    transport and constructs none, leaves [pcRef] and the role empty,
    clears chat, draft and queue, sets the status ["Next..."] and emits
    [next] and then [find], and nothing else.  Being a total function it
    raises no error. *)
Theorem next_without_session (s : State) :
  pcRef s = None -> socketRef s = true ->
  out (next s) = out s ++ [emit_next; emit_find]
  /\ pcs (next s) = pcs s
  /\ pcRef (next s) = None
  /\ role (next s) = None
  /\ chat (next s) = [] /\ draft (next s) = ""
  /\ queueInfo (next s) = None
  /\ status (next s) = "Next...".
Proof.
  intros Hp Hs.
  destruct s as [st ro ob qi ch dr so pr ls lv rv ps ou].
  cbn in Hp, Hs. subst pr so.
  unfold next, emit_via_ref, cleanupPeerConnection.
  destruct rv; cbn; rewrite <- app_assoc; repeat split.
Qed.

Lemma next_without_session_witness :
  out (next (state mounted))
  = [emit_hello "client-1"; emit_next; emit_find].
Proof.
  exact (proj1 (next_without_session (state mounted) eq_refl eq_refl)).
Defined.

(** ** The queue status *)

(** C4, counterexample: right after mounting, before any [find] was
    sent and with no transport, a [queue-status] event is stored. *)
Lemma queue_status_stored_while_idle :
  let s := state (run mounted [socket_queue_status third_in_line]) in
  queueInfo s = Some third_in_line
  /\ pcRef s = None
  /\ out s = [emit_hello "client-1"].
Proof.
  vm_compute. repeat split; reflexivity.
Qed.

Lemma on_matched_now r s :
  exists pc,
    now (on_matched r s)
    = allocate pc (matched_prefix r s).
Proof.
  rewrite on_matched_unfold.
  destruct (localStreamRef s) as [stream|] eqn:E.
  - rewrite (createPeerConnection_cached _ stream) by exact E.
    cbn [bindA]. exists (opened stream). destruct r as [[|]|].
    + destruct (offer_side_caller (length (pcs (matched_prefix (Some caller) s)))
                  (allocate (opened stream) (matched_prefix (Some caller) s)))
        as (k & -> & _).
      reflexivity.
    + now rewrite offer_side_other.
    + now rewrite offer_side_other.
  - destruct (createPeerConnection_acquiring (matched_prefix r s))
      as (k & -> & _); [exact E|].
    exists new_pc. reflexivity.
Qed.

(** C4, amended: the [queue-status] handler stores its payload in
    whatever state the component is; the stored value is [null] when
    [next] and [stop] return, when the [matched] handler first hands
    control back, and whenever [start] completes. *)
Theorem queueInfo_by_event :
  (forall info s, queueInfo (on_queue_status info s) = Some info)
  /\ (forall s, queueInfo (next s) = None)
  /\ (forall s, queueInfo (stop s) = None)
  /\ (forall r s, queueInfo (now (on_matched r s)) = None)
  /\ (forall s, on_success (start s) (fun s' _ => queueInfo s' = None)).
Proof.
  split; [reflexivity|]. split; [|split; [|split]].
  - intros s. unfold next, emit_via_ref.
    repeat match goal with |- context [if ?b then _ else _] => destruct b end;
      reflexivity.
  - intros s. unfold stop, emit_via_ref.
    repeat match goal with |- context [if ?b then _ else _] => destruct b end;
      reflexivity.
  - intros r s. destruct (on_matched_now r s) as (pc & ->). reflexivity.
  - intros s. destruct (localStreamRef s) as [stream|] eqn:E.
    + rewrite (start_cached s stream E). cbn. apply searching_fields.
    + destruct (start_acquiring s E) as (k & -> & Hfail & Hok).
      cbn. intros [e|stream] s'.
      * now rewrite Hfail.
      * rewrite Hok. cbn. apply searching_fields.
Qed.

(** ** Inbound offers *)





(** ** The chat *)

(** C6, counterexample: right after mounting, with no transport ever
    constructed, an inbound [chat-message] is appended to the chat. *)
Lemma chat_message_without_session :
  let s := state (run mounted [socket_chat_message hi]) in
  chat s = [{| id := "m1"; text := "hi"; ts := 1700000000000; mine := false |}]
  /\ pcRef s = None
  /\ pcs s = [].
Proof.
  vm_compute. repeat split; reflexivity.
Qed.

(** C6, amended: the chat is empty when [next], [stop], the
    [partner-left] handler and the [reset] handler return, when the
    [matched] handler first hands control back, and whenever [start]
    completes; the [chat-message] handler appends its message whether or
    not a transport exists. *)
Theorem chat_by_event :
  (forall s, chat (next s) = [])
  /\ (forall s, chat (stop s) = [])
  /\ (forall s, chat (on_partner_left s) = [])
  /\ (forall s, chat (on_reset s) = [])
  /\ (forall r s, chat (now (on_matched r s)) = [])
  /\ (forall s, on_success (start s) (fun s' _ => chat s' = []))
  /\ (forall msg s,
        chat (on_chat_message msg s)
        = chat s ++ [{| id := msg_id msg; text := msg_text msg;
                        ts := msg_ts msg; mine := false |}]).
Proof.
  repeat split.
  - intros s. unfold next, emit_via_ref.
    repeat match goal with |- context [if ?b then _ else _] => destruct b end;
      reflexivity.
  - intros s. unfold stop, emit_via_ref.
    repeat match goal with |- context [if ?b then _ else _] => destruct b end;
      reflexivity.
  - intros r s. destruct (on_matched_now r s) as (pc & ->). reflexivity.
  - intros s. destruct (localStreamRef s) as [stream|] eqn:E.
    + rewrite (start_cached s stream E). cbn. apply searching_fields.
    + destruct (start_acquiring s E) as (k & -> & Hfail & Hok).
      cbn. intros [e|stream] s'.
      * now rewrite Hfail.
      * rewrite Hok. cbn. apply searching_fields.
Qed.

(** ** The [matched] event *)

(** The two settlements that take the offer side of a Caller to its
    end. *)
Lemma offer_side_settles p offer s s0 ts x un :
  run (settle_into (length ts) (offer_side (Some caller) p s)
         {| state := s0; tasks := ts ++ [x]; unhandled := un |})
      [settle (length ts) (resolved_sdp offer); settle (length ts) resolved]
  = {| state :=
         emit (emit_rtc_offer offer) (update_pc p (set_localDescription offer) s);
       tasks := ts ++ [None]; unhandled := un |}.
Proof.
  destruct (offer_side_caller p s) as (k1 & -> & _ & H1).
  cbn [settle_into tasks unhandled]. rewrite insert_snoc.
  unfold run. cbn [fold_left step].
  destruct (H1 offer s) as (k2 & E2 & _ & H2).
  erewrite (resume_await _ _ _ (createOffer p) k1 (resolved_sdp offer) (inr offer));
    [| reflexivity | exact E2].
  erewrite (resume_done _ _ _ (setLocalDescription p offer) k2 resolved (inr tt));
    [| reflexivity | apply H2].
  reflexivity.
Qed.

Lemma matched_prefix_fields r s :
  role (matched_prefix r s) = r
  /\ queueInfo (matched_prefix r s) = None
  /\ chat (matched_prefix r s) = []
  /\ status (matched_prefix r s) = ("Matched as " ++ role_str r)%string
  /\ pcs (matched_prefix r s) = pcs s
  /\ out (matched_prefix r s) = out s
  /\ localStreamRef (matched_prefix r s) = localStreamRef s.
Proof. repeat split. Qed.

Lemma step_matched w r :
  socketRef (state w) = true ->
  step w (socket_matched r)
  = settle_into (length (tasks w)) (on_matched r (state w))
      {| state := state w; tasks := tasks w ++ [None];
         unhandled := unhandled w |}.
Proof.
  intros Hs. cbn [step]. unfold inbound. now rewrite Hs.
Qed.

(** A [matched] event without a cached stream, then the camera granted:
    the transport is finished and the handler goes on to its offer
    side. *)
Lemma matched_then_granted w r stream :
  socketRef (state w) = true ->
  localStreamRef (state w) = None ->
  run w [socket_matched r; settle (length (tasks w)) (resolved_stream stream)]
  = settle_into (length (tasks w))
      (offer_side r (length (pcs (state w)))
         (update_pc (length (pcs (state w)))
            (install_hooks ∘ add_senders (getTracks stream) stream)
            (keep_stream stream (allocate new_pc (matched_prefix r (state w))))))
      {| state := allocate new_pc (matched_prefix r (state w));
         tasks := tasks w ++ [None]; unhandled := unhandled w |}.
Proof.
  intros Hs Hl.
  rewrite run_cons, step_matched, on_matched_unfold by exact Hs.
  destruct (createPeerConnection_acquiring (matched_prefix r (state w)) Hl)
    as (k & -> & _ & Hok).
  cbn [bindA settle_into tasks unhandled]. rewrite insert_snoc.
  rewrite run_cons. cbn [step]. unfold resume.
  cbn [tasks state unhandled]. rewrite lookup_snoc. cbn [answer committed].
  rewrite (Hok stream _ new_pc);
    [| cbn; apply lookup_snoc | reflexivity ].
  cbn [bindA]. unfold run. cbn [fold_left].
  destruct (offer_side r _ _) as [s1 [e|[]]|T q s1 k1];
    cbn [settle_into tasks state unhandled];
    now rewrite ?insert_snoc, ?list_insert_insert_eq.
Qed.

Lemma run_two w e1 e2 es :
  run w (e1 :: e2 :: es) = run (run w [e1; e2]) es.
Proof. reflexivity. Qed.

Lemma state_settle_into i m w : state (settle_into i m w) = now m.
Proof. destruct m as [s [e|[]]|T q s k]; reflexivity. Qed.

(** Where the [matched] handler first hands control back: the role is
    set and a new, open transport is in [pcRef]. *)
Lemma on_matched_first_return r s :
  exists pc,
    closed pc = false
    /\ now (on_matched r s) = allocate pc (matched_prefix r s).
Proof.
  rewrite on_matched_unfold.
  destruct (localStreamRef s) as [stream|] eqn:E.
  - rewrite (createPeerConnection_cached _ stream) by exact E.
    cbn [bindA]. exists (opened stream). split; [reflexivity|].
    destruct r as [[|]|].
    + destruct (offer_side_caller (length (pcs (matched_prefix (Some caller) s)))
                  (allocate (opened stream) (matched_prefix (Some caller) s)))
        as (k & -> & _).
      reflexivity.
    + now rewrite offer_side_other.
    + now rewrite offer_side_other.
  - destruct (createPeerConnection_acquiring (matched_prefix r s))
      as (k & -> & _); [exact E|].
    exists new_pc. split; reflexivity.
Qed.

(** C7, counterexample: the camera was refused at [start], the user
    pressed [next], and the server matched the client as Caller; the
    camera is refused again.  The role is set and a transport is in
    [pcRef], but no offer is produced and none is emitted. *)
Lemma matched_caller_without_offer :
  let w := run mounted [click_start; settle 0 (rejected denied); op_next;
                        socket_matched (Some caller);
                        settle 1 (rejected denied)] in
  role (state w) = Some caller
  /\ pcRef (state w) = Some 0
  /\ (localDescription <$> pcs (state w) !! 0) = Some None
  /\ out (state w) = [emit_hello "client-1"; emit_next; emit_find]
  /\ unhandled w = [denied; denied].
Proof.
  vm_compute. repeat split; reflexivity.
Qed.

(** C7, amended: every [matched] event sets the role, constructs a new
    transport and puts it in [pcRef] before the handler first hands
    control back.  With role Caller, when the local stream is cached or
    the camera is granted, [createOffer] and [setLocalDescription]
    resolve and no other event comes in between, the offer is committed
    as the local description of that transport and emitted, once.  With
    role Callee, the local stream cached or granted, the transport is
    completed, nothing is emitted and no promise is left pending. *)
Theorem matched_by_role (w : World) :
  socketRef (state w) = true ->
  let i := length (tasks w) in
  let n := length (pcs (state w)) in
  (forall stream offer,
     localStreamRef (state w) = Some stream ->
     let w' := run w [socket_matched (Some caller);
                      settle i (resolved_sdp offer); settle i resolved] in
     role (state w') = Some caller
     /\ pcRef (state w') = Some n
     /\ pcs (state w')
        = pcs (state w) ++ [set_localDescription offer (opened stream)]
     /\ out (state w') = out (state w) ++ [emit_rtc_offer offer]
     /\ unhandled w' = unhandled w)
  /\ (forall stream offer,
        localStreamRef (state w) = None ->
        let w' := run w [socket_matched (Some caller);
                         settle i (resolved_stream stream);
                         settle i (resolved_sdp offer); settle i resolved] in
        role (state w') = Some caller
        /\ pcRef (state w') = Some n
        /\ pcs (state w')
           = pcs (state w) ++ [set_localDescription offer (opened stream)]
        /\ out (state w') = out (state w) ++ [emit_rtc_offer offer]
        /\ unhandled w' = unhandled w)
  /\ (forall stream,
        localStreamRef (state w) = Some stream ->
        let w' := run w [socket_matched (Some callee)] in
        role (state w') = Some callee
        /\ pcRef (state w') = Some n
        /\ pcs (state w') = pcs (state w) ++ [opened stream]
        /\ out (state w') = out (state w)
        /\ tasks w' = tasks w ++ [None]
        /\ unhandled w' = unhandled w)
  /\ (forall stream,
        localStreamRef (state w) = None ->
        let w' := run w [socket_matched (Some callee);
                         settle i (resolved_stream stream)] in
        role (state w') = Some callee
        /\ pcRef (state w') = Some n
        /\ pcs (state w') = pcs (state w) ++ [opened stream]
        /\ out (state w') = out (state w)
        /\ tasks w' = tasks w ++ [None]
        /\ unhandled w' = unhandled w)
  /\ (forall r,
        let w' := step w (socket_matched r) in
        role (state w') = r
        /\ pcRef (state w') = Some n
        /\ length (pcs (state w')) = S n
        /\ (forall p pc, pcs (state w) !! p = Some pc ->
                         pcs (state w') !! p = Some pc)
        /\ (exists pc, pcs (state w') !! n = Some pc /\ closed pc = false)
        /\ out (state w') = out (state w)).
Proof.
  intros Hs i n. subst i n.
  split; [|split; [|split; [|split]]]; cycle 4.
  - intros r w'. subst w'. rewrite step_matched by exact Hs.
    rewrite state_settle_into.
    destruct (on_matched_first_return r (state w)) as (pc0 & Hc & ->).
    cbn [role pcRef pcs out allocate set_pcRef set_pcs
         matched_prefix setStatus resetConversationUI
         setDraft setChat setQueueInfo setRole].
    repeat apply conj; try reflexivity.
    + rewrite length_app. cbn. lia.
    + intros p pc Hp. now apply lookup_app_l_Some.
    + exists pc0. split; [apply lookup_snoc | exact Hc].
  - intros stream offer Hl w'. subst w'.
    rewrite run_cons, step_matched, on_matched_unfold by exact Hs.
    rewrite (createPeerConnection_cached _ stream) by exact Hl.
    cbn [bindA]. rewrite offer_side_settles. cbn [state unhandled].
    repeat split.
    unfold update_pc, allocate. cbn. now rewrite alter_snoc.
  - intros stream offer Hl w'. subst w'.
    rewrite run_two.
    rewrite (matched_then_granted _ _ stream Hs Hl), offer_side_settles.
    cbn [state unhandled].
    autorewrite with fields.
    change (pcs (allocate new_pc (matched_prefix (Some caller) (state w))))
      with (pcs (state w) ++ [new_pc]).
    rewrite !alter_snoc. repeat split.
  - intros stream Hl w'. subst w'.
    rewrite run_cons, step_matched, on_matched_unfold by exact Hs.
    rewrite (createPeerConnection_cached _ stream) by exact Hl.
    cbn [bindA]. rewrite offer_side_other by congruence.
    unfold run. cbn [fold_left settle_into tasks state unhandled].
    rewrite insert_snoc. repeat split.
  - intros stream Hl w'. subst w'.
    rewrite (matched_then_granted _ _ stream Hs Hl).
    rewrite offer_side_other by congruence.
    cbn [settle_into tasks state unhandled]. rewrite insert_snoc.
    autorewrite with fields.
    change (pcs (allocate new_pc (matched_prefix (Some callee) (state w))))
      with (pcs (state w) ++ [new_pc]).
    rewrite !alter_snoc. repeat split.
Qed.

Lemma matched_by_role_witness :
  out (state (run in_queue [socket_matched (Some caller);
                            settle 1 (resolved_sdp "offer-1");
                            settle 1 resolved]))
  = out (state in_queue) ++ [emit_rtc_offer "offer-1"].
Proof.
  destruct (matched_by_role in_queue eq_refl) as (H & _).
  destruct (H cam "offer-1" eq_refl) as (_ & _ & _ & Hout & _).
  exact Hout.
Defined.

(** ** Departure of the peer and forced reset *)

(** What the two handlers share and where they differ, for every state:
    both close the transport in [pcRef] and release its three callbacks,
    empty [pcRef] and the role, clear the chat and the draft, and keep
    the stored queue status; [partner-left] sets the status
    ["Partner left. Waiting..."] and emits one [find], [reset] sets
    ["Reset"] and emits nothing. *)
Lemma partner_left_and_reset (s : State) :
  let left := on_partner_left s in
  let reset := on_reset s in
  (pcRef left = None /\ pcRef reset = None)
  /\ (role left = None /\ role reset = None)
  /\ (chat left = [] /\ chat reset = [])
  /\ (draft left = "" /\ draft reset = "")
  /\ (queueInfo left = queueInfo s /\ queueInfo reset = queueInfo s)
  /\ pcs left = pcs reset
  /\ (forall p pc, pcRef s = Some p -> pcs s !! p = Some pc ->
        exists pc',
          pcs left !! p = Some pc' /\ pcs reset !! p = Some pc'
          /\ closed pc' = true /\ onicecandidate pc' = false
          /\ ontrack pc' = false /\ onconnectionstatechange pc' = false
          /\ connectionState pc' = cs_closed)
  /\ status left = "Partner left. Waiting..."
  /\ out left = out s ++ [emit_find]
  /\ status reset = "Reset"
  /\ out reset = out s.
Proof.
  cbv zeta.
  destruct s as [st ro ob qi ch dr so pr ls lv rv ps ou].
  repeat apply conj; try (destruct pr, rv; reflexivity).
  intros p pc Hr Hp. cbn in Hr, Hp. subst pr.
  exists (release_and_close pc).
  unfold on_partner_left, on_reset, resetConversationUI. cbn.
  rewrite !cleanupPeerConnection_pcs. cbn.
  rewrite list_lookup_alter_eq, Hp. repeat apply conj; reflexivity.
Qed.

(** C8 (the code departs from the claim): the client is searching and
    the server has sent a queue status; a [reset] event arrives.  The
    handler sets the status ["Reset"], emits nothing and leaves no
    transport and no role, but the queue status stays stored, so the
    state is not the idle one, which has none, and the status pill goes
    on showing the queue line.  [stop], the other way to idle, clears
    it. *)
Theorem reset_keeps_queue_status :
  let queued := run in_queue [socket_queue_status third_in_line] in
  let after_reset := state (run queued [socket_reset]) in
  let after_stop := state (run queued [op_stop]) in
  queueInfo (state queued) = Some third_in_line
  /\ queueInfo after_reset = Some third_in_line
  /\ statusPill after_reset = queue_line third_in_line
  /\ status after_reset = "Reset"
  /\ pcRef after_reset = None
  /\ role after_reset = None
  /\ chat after_reset = []
  /\ out after_reset = out (state queued)
  /\ queueInfo after_stop = None
  /\ statusPill after_stop = status_line "Stopped".
Proof.
  vm_compute. repeat split; reflexivity.
Qed.

(** ** Negotiation events after teardown *)

(** C9: with no transport in [pcRef], as after every teardown, an
    inbound answer and an inbound candidate return at once: the state is
    the same, nothing is emitted, no promise is awaited and nothing is
    thrown. *)
Theorem late_negotiation_ignored (w : World) (sdp : Sdp) (c : Candidate) :
  pcRef (state w) = None ->
  on_rtc_answer sdp (state w) = Done (state w) (inr tt)
  /\ on_rtc_ice c (state w) = Done (state w) (inr tt)
  /\ (forall e, e = socket_rtc_answer sdp \/ e = socket_rtc_ice c ->
        state (step w e) = state w
        /\ unhandled (step w e) = unhandled w
        /\ (forall i t, tasks (step w e) !! i = Some (Some t) ->
                        tasks w !! i = Some (Some t))).
Proof.
  intros Hp.
  assert (Ha : on_rtc_answer sdp (state w) = Done (state w) (inr tt))
    by (unfold on_rtc_answer; now rewrite Hp).
  assert (Hi : on_rtc_ice c (state w) = Done (state w) (inr tt))
    by (unfold on_rtc_ice; now rewrite Hp).
  split; [exact Ha|]. split; [exact Hi|].
  assert (Hslot : forall i t,
            (tasks w ++ [None]) !! i = Some (Some t) ->
            tasks w !! i = Some (Some t)).
  { intros i t H. apply lookup_app_Some in H as [H|[_ H]]; [exact H|].
    destruct (i - length (tasks w)); cbn in H; discriminate. }
  intros e [-> | ->]; cbn [step]; unfold inbound;
    destruct (socketRef (state w)); auto.
  - rewrite (call_done _ _ _ Ha). cbn. auto.
  - rewrite (call_done _ _ _ Hi). cbn. auto.
Qed.

Lemma late_negotiation_ignored_witness :
  let w := run calling [op_next] in
  state (step w (socket_rtc_answer "answer-1")) = state w
  /\ state (step w (socket_rtc_ice "candidate-1")) = state w.
Proof.
  intros w.
  destruct (late_negotiation_ignored w "answer-1" "candidate-1" eq_refl)
    as (_ & _ & H).
  split.
  - exact (proj1 (H _ (or_introl eq_refl))).
  - exact (proj1 (H _ (or_intror eq_refl))).
Defined.

(** ** Candidates that cannot be applied *)

(** C10: when the transport rejects an inbound candidate, the handler
    swallows the rejection.  Whatever the state is when the rejection
    arrives, it is left as it is and the handler ends normally; run
    through the event loop, the state after the failed candidate is the
    state before it, with the same transport still in [pcRef], and no
    error reaches the event loop. *)
Theorem failed_candidate_discarded (w : World) (p : nat) (c : Candidate) (e : Err) :
  socketRef (state w) = true ->
  pcRef (state w) = Some p ->
  (exists k,
     on_rtc_ice c (state w) = Await (addIceCandidate p c) (state w) k
     /\ forall s', k (inl e) s' = Done s' (inr tt))
  /\ (let w' := run w [socket_rtc_ice c;
                       settle (length (tasks w)) (rejected e)] in
      state w' = state w
      /\ pcRef (state w') = Some p
      /\ unhandled w' = unhandled w).
Proof.
  intros Hs Hp.
  destruct (on_rtc_ice_protocol c (state w) p Hp) as (k & Hk & Hdone).
  split.
  - exists k. auto.
  - unfold run. cbn [fold_left step]. unfold inbound. rewrite Hs.
    rewrite (call_await _ _ _ _ _ Hk).
    erewrite (resume_done _ _ _ (addIceCandidate p c) k (rejected e) (inl e));
      [| reflexivity | apply Hdone].
    cbn. auto.
Qed.

Lemma failed_candidate_discarded_witness :
  state (run calling [socket_rtc_ice "candidate-1";
                      settle 2 (rejected (DOMException "InvalidStateError"))])
  = state calling.
Proof.
  exact (proj1 (proj2 (failed_candidate_discarded calling 0 "candidate-1"
                         (DOMException "InvalidStateError") eq_refl eq_refl))).
Defined.

(** * Further properties of the component *)

(** ** Teardown, again *)

(** X1: tearing down twice is tearing down once.  A second
    [cleanupPeerConnection] or a second [reset] changes nothing; a second
    [stop], [next] or [partner-left] only repeats its emissions. *)
Theorem teardown_twice (s : State) :
  cleanupPeerConnection (cleanupPeerConnection s) = cleanupPeerConnection s
  /\ on_reset (on_reset s) = on_reset s
  /\ stop (stop s) = emit_via_ref emit_stop (stop s)
  /\ next (next s)
     = emit_via_ref emit_find (emit_via_ref emit_next (next s))
  /\ on_partner_left (on_partner_left s)
     = emit emit_find (on_partner_left s).
Proof.
  destruct s as [st ro ob qi ch dr [|] [p|] ls lv [rv|] ps ou];
    repeat apply conj; vm_compute; reflexivity.
Qed.

(** X2: teardown touches the transport in [pcRef] and nothing else of
    the media.  The cached local stream and the local video element stay
    as they are, the store keeps its size, every other transport is
    left alone, and the remote video element, when there is one, ends
    with no stream attached.  [next], [stop], [partner-left] and [reset]
    leave the same store and the same local stream behind. *)
Theorem teardown_frame (s : State) :
  let s' := cleanupPeerConnection s in
  localStreamRef s' = localStreamRef s
  /\ localVideoRef s' = localVideoRef s
  /\ length (pcs s') = length (pcs s)
  /\ (forall i, pcRef s <> Some i -> pcs s' !! i = pcs s !! i)
  /\ remoteVideoRef s'
     = (fun _ => {| srcObject := None |}) <$> remoteVideoRef s
  /\ (forall f, In f [next; stop; on_partner_left; on_reset] ->
        pcs (f s) = pcs s'
        /\ localStreamRef (f s) = localStreamRef s
        /\ localVideoRef (f s) = localVideoRef s
        /\ remoteVideoRef (f s) = remoteVideoRef s').
Proof.
  cbv zeta.
  destruct s as [st ro ob qi ch dr so pr ls lv rv ps ou].
  split; [|split; [|split; [|split; [|split]]]].
  - destruct pr, rv; reflexivity.
  - destruct pr, rv; reflexivity.
  - rewrite cleanupPeerConnection_pcs. cbn.
    destruct pr; [apply length_alter | reflexivity].
  - intros i Hi. rewrite cleanupPeerConnection_pcs. cbn in *.
    destruct pr as [p|]; [|reflexivity].
    apply list_lookup_alter_ne. congruence.
  - destruct pr, rv; reflexivity.
  - intros f [<-|[<-|[<-|[<-|[]]]]];
      destruct so, pr, rv; repeat apply conj; vm_compute; reflexivity.
Qed.

Lemma teardown_frame_witness :
  pcs (cleanupPeerConnection
         (state (run calling [socket_matched (Some callee)]))) !! 0
  = Some (set_localDescription "offer-1" (opened cam)).
Proof.
  destruct (teardown_frame (state (run calling [socket_matched (Some callee)])))
    as (_ & _ & _ & H & _).
  rewrite (H 0); [reflexivity | discriminate].
Defined.
Lemma teardown_pcs s :
  pcs (next s) = pcs (cleanupPeerConnection s)
  /\ pcs (stop s) = pcs (cleanupPeerConnection s)
  /\ pcs (on_partner_left s) = pcs (cleanupPeerConnection s)
  /\ pcs (on_reset s) = pcs (cleanupPeerConnection s).
Proof.
  destruct s as [st ro ob qi ch dr so pr ls lv rv ps ou].
  destruct so, pr, rv; repeat apply conj; vm_compute; reflexivity.
Qed.

(** A transport that is closed, or an index with no transport, calls
    nothing back. *)
Lemma callbacks_of_closed w p c streams cs :
  (forall pc, pcs (state w) !! p = Some pc -> closed pc = true) ->
  step w (pc_icecandidate p c) = w
  /\ step w (pc_track p streams) = w
  /\ step w (pc_connectionstatechange p cs) = w.
Proof.
  intros H. cbn [step]. unfold callback.
  destruct (pcs (state w) !! p) as [pc|] eqn:E.
  - rewrite (H pc eq_refl). cbn. rewrite E, (H pc eq_refl). auto.
  - rewrite E. auto.
Qed.

(** X3: once [next], [stop], [partner-left] or [reset] has run, the
    transport that was in [pcRef] calls nothing back any more: a
    candidate, a track or a connection state change it reports leaves the
    component exactly as it is. *)
Theorem superseded_callbacks_dead (w : World) (p : nat) :
  pcRef (state w) = Some p ->
  let dead w' :=
    forall c streams cs,
      step w' (pc_icecandidate p c) = w'
      /\ step w' (pc_track p streams) = w'
      /\ step w' (pc_connectionstatechange p cs) = w' in
  dead (step w op_next)
  /\ dead (step w op_stop)
  /\ (socketRef (state w) = true ->
      dead (step w socket_partner_left) /\ dead (step w socket_reset)).
Proof.
  intros Hp dead.
  assert (Hclosed : forall pc,
            pcs (cleanupPeerConnection (state w)) !! p = Some pc ->
            closed pc = true).
  { intros pc. rewrite cleanupPeerConnection_pcs, Hp, list_lookup_alter_eq.
    destruct (pcs (state w) !! p); cbn; [|discriminate].
    intros [= <-]. reflexivity. }
  destruct (teardown_pcs (state w)) as (Hn & Hs & Hl & Hr).
  repeat apply conj.
  - intros c streams cs. apply callbacks_of_closed.
    cbn [step sync state]. rewrite Hn. exact Hclosed.
  - intros c streams cs. apply callbacks_of_closed.
    cbn [step sync state]. rewrite Hs. exact Hclosed.
  - intros Hso. split; intros c streams cs; apply callbacks_of_closed;
      cbn [step]; unfold inbound; rewrite Hso; cbn [sync state].
    + rewrite Hl. exact Hclosed.
    + rewrite Hr. exact Hclosed.
Qed.

Lemma superseded_callbacks_dead_witness :
  let w' := step calling op_next in
  step w' (pc_icecandidate 0 (Some "candidate-1")) = w'.
Proof.
  destruct (superseded_callbacks_dead calling 0 eq_refl) as (H & _).
  exact (proj1 (H (Some "candidate-1") [] cs_connected)).
Defined.

(** ** The callbacks of a live transport *)








(** ** Invariants of runs *)

Lemma closed_alter (f : PeerConnection -> PeerConnection)
    (l : list PeerConnection) : forall p : nat,
  (forall pc, closed (f pc) = closed pc) ->
  closed <$> alter f p l = closed <$> l.
Proof.
  induction l as [|x l IH]; intros [|p] Hf; cbn; try reflexivity.
  - now rewrite Hf.
  - f_equal. now apply IH.
Qed.

Lemma lookup_closed (l : list PeerConnection) p b :
  (closed <$> l) !! p = Some b
  <-> exists pc, l !! p = Some pc /\ closed pc = b.
Proof.
  rewrite list_lookup_fmap. destruct (l !! p) as [pc|]; cbn.
  - split.
    + intros [= <-]. eauto.
    + intros (pc' & [= <-] & <-). reflexivity.
  - split; [discriminate | intros (pc' & [=] & _)].
Qed.

Section Invariants.
Variable I : State -> Prop.
Variable G : State -> Prop.
Hypothesis I_frame : forall s s',
  role s' = role s -> pcRef s' = pcRef s ->
  closed <$> pcs s' = closed <$> pcs s -> I s -> I s'.
Hypothesis I_cleanup : forall s, I s -> I (cleanupPeerConnection s).
Hypothesis I_alloc : forall s, pcRef s = None -> I s -> I (allocate new_pc s).
Hypothesis I_matched : forall r s,
  G s -> I s -> I (allocate new_pc (matched_prefix r s)).

Local Ltac framed H :=
  match type of H with
  | I ?s => apply (I_frame s); [reflexivity | reflexivity | reflexivity | exact H]
  end.

Lemma keep_update p f s :
  (forall pc, closed (f pc) = closed pc) -> I s -> I (update_pc p f s).
Proof.
  intros Hf H. apply (I_frame s); try reflexivity; [|exact H].
  unfold update_pc. cbn. now apply closed_alter.
Qed.

Lemma keep_emit e s : I s -> I (emit e s).
Proof. intros H. framed H. Qed.

Lemma keep_emit_via_ref e s : I s -> I (emit_via_ref e s).
Proof.
  intros H. unfold emit_via_ref. destruct (socketRef s); [|exact H].
  now apply keep_emit.
Qed.

Lemma keep_keep_stream stream s : I s -> I (keep_stream stream s).
Proof.
  intros H. unfold keep_stream. cbn. destruct (localVideoRef s); framed H.
Qed.

Lemma keep_attach_video_refs s : I s -> I (attach_video_refs s).
Proof.
  intros H. destruct s as [st ro ob qi ch dr so pr ls [lv|] [rv|] ps ou];
    framed H.
Qed.

Lemma keep_pc_onconnectionstatechange p s :
  I s -> I (pc_onconnectionstatechange p s).
Proof.
  intros H. unfold pc_onconnectionstatechange.
  destruct (pcs s !! p); [framed H | exact H].
Qed.

Lemma keep_teardown f s :
  In f [next; stop; on_partner_left; on_reset] -> I s -> I (f s).
Proof.
  intros Hf H.
  assert (H1 : forall st, I (cleanupPeerConnection (setStatus st s)))
    by (intros st; apply I_cleanup; framed H).
  destruct Hf as [<-|[<-|[<-|[<-|[]]]]].
  - unfold next. do 2 apply keep_emit_via_ref.
    pose proof (H1 "Next...") as H2. framed H2.
  - unfold stop. apply keep_emit_via_ref.
    pose proof (H1 "Stopped") as H2. framed H2.
  - unfold on_partner_left. apply keep_emit.
    pose proof (H1 "Partner left. Waiting...") as H2. framed H2.
  - unfold on_reset.
    pose proof (H1 "Reset") as H2. framed H2.
Qed.

Lemma preserves_bind {A B} (m : Async A) (f : A -> Prog B) :
  preserves I m -> (forall a s, I s -> preserves I (f a s)) ->
  preserves I (bindA m f).
Proof.
  intros Hm Hf. induction m as [s [e|a]|T q s k IH]; cbn in *; auto.
  destruct Hm as (Hs & Hk). split; auto.
Qed.

Lemma preserves_catch {A} (m : Async A) (h : Err -> Prog A) :
  preserves I m -> (forall e s, I s -> preserves I (h e s)) ->
  preserves I (catchA m h).
Proof.
  intros Hm Hh. induction m as [s [e|a]|T q s k IH]; cbn in *; auto.
  destruct Hm as (Hs & Hk). split; auto.
Qed.

Lemma preserves_await {T} (q : Req T) s : I s -> preserves I (await q s).
Proof. intros H. cbn. auto. Qed.

Lemma preserves_exec f s :
  (forall s, I s -> I (f s)) -> I s -> preserves I (exec f s).
Proof. intros Hf H. cbn. auto. Qed.

Lemma preserves_ensureLocalMedia s : I s -> preserves I (ensureLocalMedia s).
Proof.
  intros H. unfold ensureLocalMedia. destruct (localStreamRef s); [exact H|].
  cbn. split; [exact H|]. intros [e|stream] s' H'; cbn; auto.
  now apply keep_keep_stream.
Qed.

Lemma preserves_addTracks p stream tracks : forall s,
  I s -> preserves I (addTracks p tracks stream s).
Proof.
  induction tracks as [|t tracks IH]; intros s H; [exact H|].
  cbn [addTracks]. apply preserves_bind.
  - unfold addTrack. destruct (pcs s !! p) as [pc|]; [|exact H].
    destruct (closed pc); [exact H|]. cbn. now apply keep_update.
  - intros _ s' H'. now apply IH.
Qed.

Lemma preserves_createPeerConnection s :
  I (allocate new_pc s) -> preserves I (createPeerConnection s).
Proof.
  intros H. unfold createPeerConnection.
  change (preserves I
    (bindA (ensureLocalMedia (allocate new_pc s))
       (fun localStream =>
          addTracks (length (pcs s)) (getTracks localStream) localStream;;
          exec (update_pc (length (pcs s)) install_hooks);;
          ret (length (pcs s))))).
  apply preserves_bind; [now apply preserves_ensureLocalMedia|].
  intros stream s1 H1. apply preserves_bind; [now apply preserves_addTracks|].
  intros _ s2 H2. cbn. now apply keep_update.
Qed.

Lemma preserves_offer_side r pc s : I s -> preserves I (offer_side r pc s).
Proof.
  intros H. destruct r as [[|]|]; try exact H.
  cbn. split; [exact H|]. intros [e|offer] s1 H1; cbn; auto.
  split; [exact H1|]. intros [e|[]] s2 H2; cbn; auto.
  now apply keep_emit.
Qed.

Lemma preserves_answer_side sdp pc s : I s -> preserves I (answer_side sdp pc s).
Proof.
  intros H. cbn. split; [exact H|]. intros [e|[]] s1 H1; cbn; auto.
  split; [exact H1|]. intros [e|a] s2 H2; cbn; auto.
  split; [exact H2|]. intros [e|[]] s3 H3; cbn; auto.
  now apply keep_emit.
Qed.

Lemma preserves_on_matched r s : G s -> I s -> preserves I (on_matched r s).
Proof.
  intros Hg H. rewrite on_matched_unfold. apply preserves_bind.
  - apply preserves_createPeerConnection. now apply I_matched.
  - intros pc s'. apply preserves_offer_side.
Qed.

Lemma preserves_on_rtc_offer sdp s : I s -> preserves I (on_rtc_offer sdp s).
Proof.
  intros H. rewrite on_rtc_offer_unfold. destruct (pcRef s) eqn:E.
  - now apply preserves_answer_side.
  - apply preserves_bind.
    + apply preserves_createPeerConnection. now apply I_alloc.
    + intros pc s'. apply preserves_answer_side.
Qed.

Lemma preserves_on_rtc_answer sdp s : I s -> preserves I (on_rtc_answer sdp s).
Proof.
  intros H. unfold on_rtc_answer. destruct (pcRef s); [|exact H].
  now apply preserves_await.
Qed.

Lemma preserves_on_rtc_ice c s : I s -> preserves I (on_rtc_ice c s).
Proof.
  intros H. unfold on_rtc_ice. destruct (pcRef s); [|exact H].
  apply preserves_catch; [now apply preserves_await|].
  intros e s' H'. exact H'.
Qed.

Lemma preserves_start s : I s -> preserves I (start s).
Proof.
  intros H. unfold start.
  change (preserves I
    (bindA (ensureLocalMedia (setStatus "Requesting camera..." s))
       (fun _ => exec (setStatus "Searching match...");;
                 exec resetConversationUI;;
                 exec (setQueueInfo None);;
                 exec (emit_via_ref emit_find)))).
  apply preserves_bind.
  - apply preserves_ensureLocalMedia. framed H.
  - intros _ s' H'. cbn. apply keep_emit_via_ref. framed H'.
Qed.

Lemma keep_committed {T} (q : Req T) r s : I s -> I (committed q r s).
Proof.
  intros H. unfold committed. destruct r; [exact H|].
  destruct q; try exact H; now apply keep_update.
Qed.

Lemma keeps_settle_into i m w s0 :
  Forall (task_keeps I) (tasks w) -> preserves I m ->
  world_keeps I (settle_into i m
                   {| state := s0; tasks := tasks w; unhandled := unhandled w |}).
Proof.
  intros Ht Hm. destruct m as [s [e|[]]|T q s k]; cbn in *;
    (split; [tauto|]); apply Forall_insert; auto; cbn; tauto.
Qed.

Lemma keeps_call m w :
  world_keeps I w -> preserves I (m (state w)) -> world_keeps I (call m w).
Proof.
  intros (Hs & Ht) Hm. unfold call.
  apply (keeps_settle_into _ _
           {| state := state w; tasks := tasks w ++ [None];
              unhandled := unhandled w |}); [|exact Hm].
  cbn. apply Forall_app. split; [exact Ht|]. repeat constructor.
Qed.

Lemma keeps_sync f w :
  world_keeps I w -> I (f (state w)) -> world_keeps I (sync f w).
Proof. intros (Hs & Ht) Hf. split; assumption. Qed.

Lemma keeps_resume i o w : world_keeps I w -> world_keeps I (resume i o w).
Proof.
  intros Hw. pose proof Hw as (Hs & Ht). unfold resume.
  destruct (tasks w !! i) as [[[T q k]|]|] eqn:E; try exact Hw.
  destruct (answer q o) as [r|]; [|exact Hw].
  destruct w as [s ts un]. cbn in *.
  apply (keeps_settle_into i _ {| state := s; tasks := ts; unhandled := un |});
    [exact Ht|].
  rewrite Forall_lookup in Ht. apply (Ht i _ E).
  now apply keep_committed.
Qed.

Lemma keeps_inbound h w :
  world_keeps I w -> (world_keeps I (h w)) -> world_keeps I (inbound h w).
Proof. intros Hw Hh. unfold inbound. now destruct (socketRef (state w)). Qed.

Lemma keeps_callback p hook h w :
  world_keeps I w -> I (h (state w)) -> world_keeps I (callback p hook h w).
Proof.
  intros Hw Hh. unfold callback. destruct (pcs (state w) !! p); [|exact Hw].
  destruct (negb _ && _); [|exact Hw]. now apply keeps_sync.
Qed.

Lemma keeps_step w e :
  world_keeps I w ->
  match e with socket_matched _ => G (state w) | _ => True end ->
  world_keeps I (step w e).
Proof.
  intros Hw Hg. pose proof Hw as (Hs & Ht).
  destruct e; cbn [step];
    try (apply keeps_inbound; [exact Hw|]);
    try (apply keeps_sync; [exact Hw|]);
    try (apply keeps_call; [exact Hw|]).
  - framed Hs.
  - apply keeps_sync.
    + apply keeps_call.
      * apply keeps_sync; [exact Hw|]. framed Hs.
      * cbn. apply preserves_start. framed Hs.
    + set (w1 := call start _). assert (H1 : I (state w1)).
      { subst w1. apply keeps_call.
        - apply keeps_sync; [exact Hw|]. framed Hs.
        - cbn. apply preserves_start. framed Hs. }
      now apply keep_attach_video_refs.
  - now apply preserves_start.
  - apply keep_teardown; [|exact Hs]. cbn; auto.
  - apply keep_teardown; [|exact Hs]. cbn; auto.
  - framed Hs.
  - framed Hs.
  - framed Hs.
  - framed Hs.
  - framed Hs.
  - framed Hs.
  - now apply preserves_on_matched.
  - apply keep_teardown; [|exact Hs]. cbn; auto.
  - apply keep_teardown; [|exact Hs]. cbn; auto.
  - framed Hs.
  - now apply preserves_on_rtc_offer.
  - now apply preserves_on_rtc_answer.
  - now apply preserves_on_rtc_ice.
  - apply keeps_callback; [exact Hw|].
    destruct candidate; cbn; [now apply keep_emit_via_ref | exact Hs].
  - apply keeps_callback; [exact Hw|]. unfold pc_ontrack.
    destruct (remoteVideoRef (state w)); [framed Hs | exact Hs].
  - assert (Hw' : world_keeps I
      match pcs (state w) !! p with
      | Some pc => if closed pc then w
                   else sync (update_pc p (set_connectionState c)) w
      | None => w
      end).
    { destruct (pcs (state w) !! p) as [pc|]; [|exact Hw].
      destruct (closed pc); [exact Hw|].
      apply keeps_sync; [exact Hw|]. now apply keep_update. }
    apply keeps_callback; [exact Hw'|].
    apply keep_pc_onconnectionstatechange. apply Hw'.
  - now apply keeps_resume.
Qed.

Lemma keeps_run es : forall w,
  world_keeps I w -> guarded G w es -> world_keeps I (run w es).
Proof.
  induction es as [|e es IH]; intros w Hw Hg; [exact Hw|].
  destruct Hg as (Hg & Hgs). rewrite run_cons.
  apply IH; [|exact Hgs]. now apply keeps_step.
Qed.

End Invariants.
Lemma session_consistent_frame s s' :
  role s' = role s -> pcRef s' = pcRef s ->
  closed <$> pcs s' = closed <$> pcs s ->
  session_consistent s -> session_consistent s'.
Proof.
  intros Hr Hp Hc (H1 & H2). split.
  - intros p E. rewrite Hp in E. apply lookup_closed.
    rewrite Hc. apply lookup_closed. auto.
  - now rewrite Hr, Hp.
Qed.

Lemma session_consistent_allocate s :
  session_consistent (allocate new_pc s).
Proof.
  split.
  - intros p [= <-]. exists new_pc. split; [apply lookup_snoc | reflexivity].
  - discriminate.
Qed.

(** Every run from the start keeps [pcRef] on an open transport and a
    role on a transport. *)
Lemma run_session_consistent es : session_consistent (state (run boot es)).
Proof.
  apply (keeps_run session_consistent (fun _ => True)).
  - exact session_consistent_frame.
  - intros s _. split.
    + rewrite cleanupPeerConnection_pcRef. discriminate.
    + intros H. now contradiction H.
  - intros s _ _. apply session_consistent_allocate.
  - intros r s _ _. apply session_consistent_allocate.
  - split; [|constructor]. split; [discriminate | intros H; now contradiction H].
  - clear. generalize boot. induction es as [|[] es IH]; intros w; cbn; auto.
Qed.

(** X6: whatever the user, the server, the transports and the browser
    do after the component starts, [pcRef] never holds a closed
    transport and never an index outside the store: the transport the
    handlers reach through [pcRef] is an open one. *)
Theorem pcRef_always_open (es : list Event) (p : nat) :
  pcRef (state (run boot es)) = Some p ->
  exists pc, pcs (state (run boot es)) !! p = Some pc /\ closed pc = false.
Proof.
  intros H. now apply (proj1 (run_session_consistent es)).
Qed.

Lemma pcRef_always_open_witness :
  exists pc,
    pcs (state (run boot [mount "client-1"; socket_matched (Some caller);
                          op_next; socket_rtc_offer "late-offer"])) !! 1
    = Some pc /\ closed pc = false.
Proof.
  exact (pcRef_always_open
           [mount "client-1"; socket_matched (Some caller); op_next;
            socket_rtc_offer "late-offer"] 1 eq_refl).
Defined.

(** X7: in every state a run from the start can reach, a role comes
    with a transport in [pcRef]; so [isInCall] is true exactly when the
    role is set, and its test of [pcRef] never decides. *)
Theorem isInCall_is_role (es : list Event) :
  let s := state (run boot es) in
  (role s <> None -> pcRef s <> None)
  /\ isInCall s = match role s with Some _ => true | None => false end.
Proof.
  cbv zeta. destruct (run_session_consistent es) as (_ & H).
  split; [exact H|]. unfold isInCall.
  destruct (role _); [|reflexivity].
  destruct (pcRef _); [reflexivity|]. now contradiction H.
Qed.

Lemma isInCall_is_role_witness :
  pcRef (state (run boot [mount "client-1"; socket_matched (Some callee)]))
  <> None.
Proof.
  apply (proj1 (isInCall_is_role
                  [mount "client-1"; socket_matched (Some callee)])).
  discriminate.
Defined.

(** ** One live transport, when [matched] finds [pcRef] empty *)

Lemma only_pcRef_live_frame s s' :
  role s' = role s -> pcRef s' = pcRef s ->
  closed <$> pcs s' = closed <$> pcs s ->
  only_pcRef_live s -> only_pcRef_live s'.
Proof.
  intros _ Hp Hc H i pc Hi Ho. rewrite Hp.
  assert (E : (closed <$> pcs s') !! i = Some false)
    by (apply lookup_closed; eauto).
  rewrite Hc in E. apply lookup_closed in E as (pc' & E1 & E2). eauto.
Qed.

Lemma only_pcRef_live_allocate s :
  pcRef s = None -> only_pcRef_live s -> only_pcRef_live (allocate new_pc s).
Proof.
  intros Hn H i pc Hi Ho. cbn in *.
  apply lookup_app_Some in Hi as [Hi|(Hl & Hi)].
  - specialize (H i pc Hi Ho). congruence.
  - destruct (i - length (pcs s)) as [|k] eqn:E; cbn in Hi; [|discriminate].
    f_equal. lia.
Qed.

Lemma only_pcRef_live_cleanup s :
  only_pcRef_live s -> only_pcRef_live (cleanupPeerConnection s).
Proof.
  intros H i pc Hi Ho. exfalso.
  rewrite cleanupPeerConnection_pcs in Hi.
  destruct (pcRef s) as [p|] eqn:Ep.
  - destruct (decide (p = i)) as [->|Hne].
    + rewrite list_lookup_alter_eq in Hi.
      destruct (pcs s !! i); cbn in Hi; [|discriminate].
      injection Hi as <-. discriminate Ho.
    + rewrite list_lookup_alter_ne in Hi by exact Hne.
      specialize (H i pc Hi Ho). congruence.
  - specialize (H i pc Hi Ho). congruence.
Qed.

(** If every live element of a list sits at one index, at most one
    element is live. *)
Lemma live_at_one_index (l : list PeerConnection) : forall j : option nat,
  (forall i pc, l !! i = Some pc -> closed pc = false -> j = Some i) ->
  length (List.filter live l) <= 1.
Proof.
  induction l as [|x l IH]; intros j H; cbn; [lia|].
  unfold live at 1. destruct (closed x) eqn:Ex; cbn.
  - apply (IH (pred <$> j)). intros i pc Hi Ho.
    now rewrite (H (S i) pc Hi Ho).
  - assert (Hj : j = Some 0) by (apply (H 0 x); auto).
    assert (Hnone : List.filter live l = []).
    { clear IH. assert (Hl : forall i pc, l !! i = Some pc -> closed pc = true).
      { intros i pc Hi. destruct (closed pc) eqn:Ec; [reflexivity|].
        specialize (H (S i) pc Hi Ec). congruence. }
      clear H Hj. induction l as [|y l IHl]; [reflexivity|]. cbn.
      unfold live at 1. rewrite (Hl 0 y eq_refl). cbn.
      apply IHl. intros i pc Hi. exact (Hl (S i) pc Hi). }
    rewrite Hnone. cbn. lia.
Qed.

(** X8: if each [matched] event of a run arrives while [pcRef] is
    empty, then at every point of the run the only transport that can be
    open is the one in [pcRef], and so at most one transport is live. *)
Theorem one_live_transport_when_guarded (es : list Event) :
  guarded (fun s => pcRef s = None) boot es ->
  let s := state (run boot es) in
  only_pcRef_live s /\ length (live_transports s) <= 1.
Proof.
  intros Hg.
  assert (H : only_pcRef_live (state (run boot es))).
  { apply (keeps_run only_pcRef_live (fun s => pcRef s = None)); try exact Hg.
    - exact only_pcRef_live_frame.
    - exact only_pcRef_live_cleanup.
    - exact only_pcRef_live_allocate.
    - intros r s Hn Hs. apply only_pcRef_live_allocate; [exact Hn|].
      intros i pc Hi Ho. exact (Hs i pc Hi Ho).
    - split; [|constructor]. intros i pc Hi. destruct i; discriminate Hi. }
  split; [exact H|].
  apply (live_at_one_index _ (pcRef (state (run boot es)))).
  intros i pc Hi Ho. exact (H i pc Hi Ho).
Qed.

Lemma one_live_transport_when_guarded_witness :
  length (live_transports
            (state (run boot [mount "client-1"; socket_matched (Some caller);
                              op_next; socket_matched (Some callee)]))) <= 1.
Proof.
  apply (one_live_transport_when_guarded
           [mount "client-1"; socket_matched (Some caller); op_next;
            socket_matched (Some callee)]).
  cbn. repeat split; reflexivity.
Defined.
(** ** Negotiation steps that fail *)

Lemma step_rtc_offer w sdp :
  socketRef (state w) = true ->
  step w (socket_rtc_offer sdp)
  = settle_into (length (tasks w)) (on_rtc_offer sdp (state w))
      {| state := state w; tasks := tasks w ++ [None];
         unhandled := unhandled w |}.
Proof.
  intros Hs. cbn [step]. unfold inbound. now rewrite Hs.
Qed.

(** X9: a negotiation step that the transport rejects ends the handler
    and nothing more.  For an inbound offer on the transport in [pcRef],
    whichever of the three steps fails, no answer is emitted, the
    transport stays in [pcRef] with what was committed before the
    failure, and the rejection reaches the event loop uncaught; the same
    for an inbound answer whose commit fails. *)
Theorem failed_negotiation_leaves_session (w : World) (p : nat)
    (sdp a : Sdp) (e : Err) :
  socketRef (state w) = true -> pcRef (state w) = Some p ->
  let i := length (tasks w) in
  let remote := update_pc p (set_remoteDescription sdp) (state w) in
  let ends (es : list Event) (s : State) :=
    state (run w es) = s /\ unhandled (run w es) = unhandled w ++ [e] in
  ends [socket_rtc_offer sdp; settle i (rejected e)] (state w)
  /\ ends [socket_rtc_offer sdp; settle i resolved; settle i (rejected e)]
       remote
  /\ ends [socket_rtc_offer sdp; settle i resolved; settle i (resolved_sdp a);
           settle i (rejected e)] remote
  /\ ends [socket_rtc_answer sdp; settle i (rejected e)] (state w)
  /\ out remote = out (state w) /\ pcRef remote = Some p.
Proof.
  intros Hs Hp i remote ends. subst i remote ends. cbv beta.
  destruct (answer_side_protocol sdp p (state w)) as (k1 & E1 & F1 & H1).
  destruct (H1 (update_pc p (set_remoteDescription sdp) (state w)))
    as (k2 & E2 & F2 & H2).
  destruct (H2 a (update_pc p (set_remoteDescription sdp) (state w)))
    as (k3 & E3 & F3 & _).
  assert (Ho : step w (socket_rtc_offer sdp)
               = {| state := state w;
                    tasks := tasks w ++ [Some (Pending (setRemoteDescription p sdp) k1)];
                    unhandled := unhandled w |}).
  { rewrite step_rtc_offer, on_rtc_offer_unfold, Hp, E1 by exact Hs.
    cbn [settle_into tasks unhandled]. now rewrite insert_snoc. }
  assert (Ho2 : run w [socket_rtc_offer sdp; settle (length (tasks w)) resolved]
                = {| state := update_pc p (set_remoteDescription sdp) (state w);
                     tasks := tasks w ++ [Some (Pending (createAnswer p) k2)];
                     unhandled := unhandled w |}).
  { rewrite run_cons, Ho, run_cons. cbn [run fold_left step].
    erewrite (resume_await _ _ _ (setRemoteDescription p sdp) k1 resolved (inr tt));
      [reflexivity | reflexivity | exact E2]. }
  repeat apply conj; try reflexivity.
  - rewrite run_cons, Ho. unfold run. cbn [fold_left step].
    erewrite (resume_thrown _ _ _ (setRemoteDescription p sdp) k1 (rejected e) (inl e));
      [reflexivity | reflexivity | apply F1].
  - rewrite run_cons, Ho. unfold run. cbn [fold_left step].
    erewrite (resume_thrown _ _ _ (setRemoteDescription p sdp) k1 (rejected e) (inl e));
      [reflexivity | reflexivity | apply F1].
  - rewrite run_two, Ho2. unfold run. cbn [fold_left step].
    erewrite (resume_thrown _ _ _ (createAnswer p) k2 (rejected e) (inl e));
      [reflexivity | reflexivity | apply F2].
  - rewrite run_two, Ho2. unfold run. cbn [fold_left step].
    erewrite (resume_thrown _ _ _ (createAnswer p) k2 (rejected e) (inl e));
      [reflexivity | reflexivity | apply F2].
  - rewrite run_two, Ho2. unfold run. cbn [fold_left step].
    erewrite (resume_await _ _ _ (createAnswer p) k2 (resolved_sdp a) (inr a));
      [| reflexivity | exact E3].
    erewrite (resume_thrown _ _ _ (setLocalDescription p a) k3 (rejected e) (inl e));
      [reflexivity | reflexivity | apply F3].
  - rewrite run_two, Ho2. unfold run. cbn [fold_left step].
    erewrite (resume_await _ _ _ (createAnswer p) k2 (resolved_sdp a) (inr a));
      [| reflexivity | exact E3].
    erewrite (resume_thrown _ _ _ (setLocalDescription p a) k3 (rejected e) (inl e));
      [reflexivity | reflexivity | apply F3].
  - destruct (on_rtc_answer_protocol sdp (state w) p Hp) as (k & Ek & Hk).
    unfold run. cbn [fold_left step]. unfold inbound. rewrite Hs.
    rewrite (call_await _ _ _ _ _ Ek).
    erewrite (resume_thrown _ _ _ (setRemoteDescription p sdp) k (rejected e) (inl e));
      [reflexivity | reflexivity | apply Hk].
  - destruct (on_rtc_answer_protocol sdp (state w) p Hp) as (k & Ek & Hk).
    unfold run. cbn [fold_left step]. unfold inbound. rewrite Hs.
    rewrite (call_await _ _ _ _ _ Ek).
    erewrite (resume_thrown _ _ _ (setRemoteDescription p sdp) k (rejected e) (inl e));
      [reflexivity | reflexivity | apply Hk].
  - exact Hp.
Qed.

Lemma failed_negotiation_leaves_session_witness :
  out (state (run calling [socket_rtc_offer "offer-2"; settle 2 resolved;
                           settle 2 (rejected (DOMException "OperationError"))]))
  = out (state calling).
Proof.
  destruct (failed_negotiation_leaves_session calling 0 "offer-2" "answer-2"
              (DOMException "OperationError") eq_refl eq_refl)
    as (_ & (E & _) & _).
  exact (f_equal out E).
Defined.
(** ** Construction of a transport that does not complete *)

(** The continuation of [createPeerConnection] after its wait for the
    camera: it fails with the camera, and on a transport that was closed
    in the meantime it fails at the first [addTrack], after the stream
    was cached. *)
Lemma createPeerConnection_interrupted s :
  localStreamRef s = None ->
  exists k,
    createPeerConnection s = Await getUserMedia (allocate new_pc s) k
    /\ (forall e s', k (inl e) s' = Done s' (inl e))
    /\ (forall stream s' pc t ts,
          getTracks stream = t :: ts ->
          pcs s' !! length (pcs s) = Some pc -> closed pc = true ->
          k (inr stream) s'
          = Done (keep_stream stream s')
                 (inl (DOMException "InvalidStateError"))).
Proof.
  intros H. unfold createPeerConnection, bind, exec, ensureLocalMedia.
  cbn. rewrite H. cbn. eexists. split; [reflexivity|]. split.
  - reflexivity.
  - intros stream s' pc t ts Ht Hp Hc. cbn. rewrite Ht.
    rewrite (addTracks_closed t ts _ stream _ pc); [reflexivity| |exact Hc].
    now rewrite pcs_keep_stream.
Qed.

Lemma next_fields s :
  socketRef s = true ->
  out (next s) = out s ++ [emit_next; emit_find]
  /\ pcRef (next s) = None
  /\ role (next s) = None.
Proof.
  intros Hs. destruct s as [st ro ob qi ch dr so pr ls lv rv ps ou].
  cbn in Hs. subst so. unfold next, emit_via_ref, cleanupPeerConnection.
  destruct pr, rv; cbn; rewrite <- app_assoc; repeat split.
Qed.

(** X10: when a [matched] event arrives with no stream cached and the
    camera is then refused, the handler stops there.  The role is set and
    the new transport is in [pcRef], but it has no tracks, no callbacks
    and no description; nothing is emitted, and the refusal reaches the
    event loop uncaught.  [isInCall] holds for a non-null role. *)
Theorem camera_denied_while_matched (w : World) (r : Role) (e : Err) :
  socketRef (state w) = true -> localStreamRef (state w) = None ->
  let w' := run w [socket_matched r; settle (length (tasks w)) (rejected e)] in
  state w' = allocate new_pc (matched_prefix r (state w))
  /\ pcs (state w') = pcs (state w) ++ [new_pc]
  /\ pcRef (state w') = Some (length (pcs (state w)))
  /\ role (state w') = r
  /\ isInCall (state w') = match r with Some _ => true | None => false end
  /\ out (state w') = out (state w)
  /\ unhandled w' = unhandled w ++ [e].
Proof.
  intros Hs Hl.
  assert (E : run w [socket_matched r; settle (length (tasks w)) (rejected e)]
              = {| state := allocate new_pc (matched_prefix r (state w));
                   tasks := tasks w ++ [None];
                   unhandled := unhandled w ++ [e] |}).
  { rewrite run_cons, step_matched, on_matched_unfold by exact Hs.
    destruct (createPeerConnection_acquiring (matched_prefix r (state w)) Hl)
      as (k & -> & Hfail & _).
    cbn [bindA settle_into tasks unhandled]. rewrite insert_snoc.
    unfold run. cbn [fold_left step].
    erewrite (resume_thrown _ _ _ getUserMedia _ (rejected e) (inl e));
      [reflexivity | reflexivity |].
    cbn beta. now rewrite Hfail. }
  cbv zeta. rewrite E. cbn [state unhandled].
  repeat apply conj; try reflexivity.
  unfold isInCall. destruct r; reflexivity.
Qed.

Lemma camera_denied_while_matched_witness :
  isInCall (state (run mounted [socket_matched (Some caller);
                                settle 0 (rejected denied)])) = true.
Proof.
  exact (proj1 (proj2 (proj2 (proj2 (proj2
           (camera_denied_while_matched mounted (Some caller) denied
              eq_refl eq_refl)))))).
Defined.

(** X11: when the user presses [next] while the [matched] handler still
    waits for the camera, and the camera is then granted, the handler
    resumes on a transport that [next] has closed.  The stream is cached,
    the first [addTrack] throws, no callback is installed, no offer is
    made; [pcRef] and the role stay empty, and what was emitted is the
    [next] and [find] of the button. *)
Theorem teardown_during_construction (w : World) (r : Role)
    (stream : MediaStream) :
  socketRef (state w) = true -> localStreamRef (state w) = None ->
  getTracks stream <> [] ->
  let w' := run w [socket_matched r; op_next;
                   settle (length (tasks w)) (resolved_stream stream)] in
  state w'
  = keep_stream stream (next (allocate new_pc (matched_prefix r (state w))))
  /\ pcs (state w') = pcs (state w) ++ [release_and_close new_pc]
  /\ pcRef (state w') = None
  /\ role (state w') = None
  /\ localStreamRef (state w') = Some stream
  /\ out (state w') = out (state w) ++ [emit_next; emit_find]
  /\ unhandled w' = unhandled w ++ [DOMException "InvalidStateError"].
Proof.
  intros Hs Hl Ht.
  destruct (getTracks stream) as [|t ts] eqn:Et; [congruence|]. clear Ht.
  set (s0 := allocate new_pc (matched_prefix r (state w))).
  assert (Hn : pcs (next s0) = pcs (state w) ++ [release_and_close new_pc]).
  { rewrite (proj1 (teardown_pcs s0)), cleanupPeerConnection_pcs.
    subst s0. cbn. now rewrite alter_snoc. }
  assert (E : run w [socket_matched r; op_next;
                     settle (length (tasks w)) (resolved_stream stream)]
              = {| state := keep_stream stream (next s0);
                   tasks := tasks w ++ [None];
                   unhandled := unhandled w
                                ++ [DOMException "InvalidStateError"] |}).
  { rewrite run_cons, step_matched, on_matched_unfold by exact Hs.
    destruct (createPeerConnection_interrupted (matched_prefix r (state w)) Hl)
      as (k & -> & _ & Hclosed).
    cbn [bindA settle_into tasks unhandled]. rewrite insert_snoc.
    rewrite run_cons. cbn [step]. unfold sync at 1.
    cbn [state tasks unhandled]. fold s0.
    unfold run. cbn [fold_left step].
    erewrite (resume_thrown _ _ _ getUserMedia _
                (resolved_stream stream) (inr stream));
      [reflexivity | reflexivity |].
    cbn beta. cbn [committed].
    rewrite (Hclosed stream (next s0) (release_and_close new_pc) t ts Et);
      [reflexivity | | reflexivity].
    rewrite Hn. apply lookup_snoc. }
  cbv zeta. rewrite E. cbn [state unhandled].
  repeat apply conj; try reflexivity.
  - now rewrite pcs_keep_stream.
  - rewrite pcRef_keep_stream. now apply next_fields.
  - rewrite role_keep_stream. now apply next_fields.
  - apply keep_stream_fields.
  - rewrite out_keep_stream.
    rewrite (proj1 (next_fields s0 Hs)). reflexivity.
Qed.

Lemma teardown_during_construction_witness :
  unhandled (run mounted [socket_matched (Some caller); op_next;
                          settle 0 (resolved_stream cam)])
  = [DOMException "InvalidStateError"].
Proof.
  assert (H : getTracks cam <> []) by discriminate.
  exact (proj2 (proj2 (proj2 (proj2 (proj2 (proj2
           (teardown_during_construction mounted (Some caller) cam
              eq_refl eq_refl H))))))).
Defined.

(** ** Messages of the peer *)

(** X12: the messages of the peer are appended to the chat in the order
    of their arrival, each marked as not the user's own; nothing else of
    the component changes. *)
Theorem chat_in_arrival_order (msgs : list ChatPayload) : forall (w : World),
  socketRef (state w) = true ->
  let received msg :=
    {| id := msg_id msg; text := msg_text msg; ts := msg_ts msg;
       mine := false |} in
  let w' := run w (socket_chat_message <$> msgs) in
  state w' = setChat (chat (state w) ++ (received <$> msgs)) (state w)
  /\ tasks w' = tasks w /\ unhandled w' = unhandled w.
Proof.
  induction msgs as [|m msgs IH]; intros w Hs.
  - cbn. rewrite app_nil_r. destruct w as [[] ? ?]. auto.
  - cbn [fmap list_fmap]. cbv zeta. rewrite run_cons.
    assert (E : step w (socket_chat_message m) = sync (on_chat_message m) w)
      by (cbn [step]; unfold inbound; now rewrite Hs).
    rewrite E. destruct (IH (sync (on_chat_message m) w) Hs) as (E1 & E2 & E3).
    rewrite E1, E2, E3. repeat apply conj; try reflexivity.
    cbn. unfold setChat. cbn. now rewrite <- app_assoc.
Qed.

Lemma chat_in_arrival_order_witness :
  length (chat (state (run mounted [socket_chat_message hi;
                                    socket_chat_message hi]))) = 2.
Proof.
  destruct (chat_in_arrival_order [hi; hi] mounted eq_refl) as (E & _).
  exact (f_equal (fun s => length (chat s)) E).
Defined.

(** ** Sending a chat message *)

Section SendChatProperties.
Variable trim : string -> string.
Hypothesis trim_empty : trim "" = "".

(** X13: a render's [sendChat] keeps the draft the render read.  Called
    a second time from the same render, before the next one, it sends
    the same text again: the chat ends with two messages of the user's
    own with that text, and a second payload goes out.  Called from the
    render that follows, which reads the emptied draft, it does
    nothing. *)
Theorem sendChat_stale_draft (d u1 u2 : string) (t1 t2 : Z) (s : State) :
  trim d <> "" ->
  let own u t := {| id := u; text := trim d; ts := t; mine := true |} in
  let payload u t := {| msg_id := u; msg_text := trim d; msg_ts := t |} in
  let s1 := fst (sendChat trim d u1 t1 s) in
  let again := sendChat trim d u2 t2 s1 in
  chat s1 = chat s ++ [own u1 t1]
  /\ draft s1 = ""
  /\ chat (fst again) = chat s ++ [own u1 t1; own u2 t2]
  /\ snd again = (if socketRef s then Some (payload u2 t2) else None)
  /\ sendChat trim (draft s1) u2 t2 s1 = (s1, None).
Proof.
  intros Hd. cbv zeta. unfold sendChat.
  destruct (trim d) as [|c rest] eqn:E; [now contradiction Hd|]. cbn.
  rewrite trim_empty, <- app_assoc. repeat apply conj; reflexivity.
Qed.

End SendChatProperties.

Lemma sendChat_stale_draft_witness :
  length (chat (fst (sendChat (fun x => x) "hello" "m3" 1700000000002
                       (fst (sendChat (fun x => x) "hello" "m2" 1700000000001
                               (setDraft "hello" (state calling)))))))
  = 2.
Proof.
  assert (H : (fun x : string => x) "hello" <> "") by discriminate.
  destruct (sendChat_stale_draft (fun x => x) eq_refl "hello" "m2" "m3"
              1700000000001 1700000000002
              (setDraft "hello" (state calling)) H) as (_ & _ & E & _).
  exact (f_equal (@length ChatMsg) E).
Defined.

(** ** The status pill *)

Lemma cleanupPeerConnection_queueInfo s :
  queueInfo (cleanupPeerConnection s) = queueInfo s.
Proof.
  unfold cleanupPeerConnection.
  destruct (pcRef s); cbn; destruct (remoteVideoRef s); reflexivity.
Qed.

(** X14: while a queue status is stored, the pill shows the queue line
    and not the status.  The statuses set by [connect], [welcome],
    [reconnected], [waiting], [queue-timeout], [partner-left], [reset]
    and by a connection state change are therefore not displayed; after
    [next], [stop] and [matched] the pill shows the status again. *)
Theorem queue_line_hides_status (s : State) (info : QueueInfo) :
  queueInfo s = Some info ->
  (forall f, In f [on_connect; on_welcome; on_reconnected; on_waiting;
                   on_queue_timeout; on_partner_left; on_reset] ->
     statusPill (f s) = queue_line info)
  /\ (forall p, statusPill (pc_onconnectionstatechange p s) = queue_line info)
  /\ statusPill (next s) = status_line "Next..."
  /\ statusPill (stop s) = status_line "Stopped"
  /\ (forall r, statusPill (now (on_matched r s))
                = status_line ("Matched as " ++ role_str r)).
Proof.
  intros Hq. repeat apply conj.
  - intros f Hf. unfold statusPill.
    assert (E : queueInfo (f s) = queueInfo s).
    { destruct Hf as [<-|[<-|[<-|[<-|[<-|[<-|[<-|[]]]]]]]]; try reflexivity.
      - unfold on_partner_left, resetConversationUI. cbn.
        now rewrite cleanupPeerConnection_queueInfo.
      - unfold on_reset, resetConversationUI. cbn.
        now rewrite cleanupPeerConnection_queueInfo. }
    now rewrite E, Hq.
  - intros p. unfold statusPill, pc_onconnectionstatechange.
    destruct (pcs s !! p); cbn; now rewrite Hq.
  - unfold statusPill, next, emit_via_ref.
    repeat match goal with |- context [if ?b then _ else _] => destruct b end;
      cbn; now rewrite cleanupPeerConnection_status.
  - unfold statusPill, stop, emit_via_ref.
    repeat match goal with |- context [if ?b then _ else _] => destruct b end;
      cbn; now rewrite cleanupPeerConnection_status.
  - intros r. destruct (on_matched_now r s) as (pc & ->). reflexivity.
Qed.

Lemma queue_line_hides_status_witness :
  statusPill (on_reset (on_queue_status third_in_line (state calling)))
  = queue_line third_in_line.
Proof.
  destruct (queue_line_hides_status
              (on_queue_status third_in_line (state calling))
              third_in_line eq_refl) as (H & _).
  apply H. cbn. auto 10.
Defined.

(** ** Muting *)

Section TrackProperties.
Variable kind : Track -> TrackKind.

Lemma existsb_eqb_In (t : Track) ts : existsb (Nat.eqb t) ts = true <-> In t ts.
Proof.
  rewrite existsb_exists. split.
  - intros (x & Hx & E). apply Nat.eqb_eq in E. now subst.
  - intros H. exists t. split; [exact H | apply Nat.eqb_refl].
Qed.

(** X15: without a cached stream [toggleMic] changes nothing.  With one,
    it flips [micOn], leaves [camOn] alone and sets [enabled] of the audio
    tracks of the stream, and of no other track, to the new [micOn]; so
    after a toggle [micOn] and every audio track agree, and a second
    toggle restores [micOn].  [toggleCam] does the same with [camOn] and
    the video tracks. *)
Theorem toggles_keep_tracks_in_step (s : State) (c : Controls)
    (enabled : Track -> bool) :
  let mic := toggleMic kind s c enabled in
  let cam := toggleCam kind s c enabled in
  (localStreamRef s = None -> mic = (c, enabled) /\ cam = (c, enabled))
  /\ (forall stream, localStreamRef s = Some stream ->
      micOn (fst mic) = negb (micOn c) /\ camOn (fst mic) = camOn c
      /\ camOn (fst cam) = negb (camOn c) /\ micOn (fst cam) = micOn c
      /\ (forall t, In t (getTracks stream) ->
            match kind t with
            | audio => snd mic t = micOn (fst mic) /\ snd cam t = enabled t
            | video => snd cam t = camOn (fst cam) /\ snd mic t = enabled t
            end)
      /\ (forall t, ~ In t (getTracks stream) ->
            snd mic t = enabled t /\ snd cam t = enabled t)
      /\ fst (toggleMic kind s (fst mic) (snd mic)) = c
      /\ fst (toggleCam kind s (fst cam) (snd cam)) = c).
Proof.
  cbv zeta. unfold toggleMic, toggleCam. split.
  - intros ->. auto.
  - intros stream ->. cbn [fst snd micOn camOn].
    repeat apply conj; try reflexivity.
    + intros t Ht. unfold set_enabled, getAudioTracks, getVideoTracks.
      destruct (kind t) eqn:Ek.
      * split.
        -- replace (existsb _ _) with true; [reflexivity|].
           symmetry. apply existsb_eqb_In, filter_In. now rewrite Ek.
        -- replace (existsb _ _) with false; [reflexivity|].
           symmetry. apply not_true_is_false. intros H.
           apply existsb_eqb_In, filter_In in H as (_ & H).
           now rewrite Ek in H.
      * split.
        -- replace (existsb _ _) with true; [reflexivity|].
           symmetry. apply existsb_eqb_In, filter_In. now rewrite Ek.
        -- replace (existsb _ _) with false; [reflexivity|].
           symmetry. apply not_true_is_false. intros H.
           apply existsb_eqb_In, filter_In in H as (_ & H).
           now rewrite Ek in H.
    + intros t Ht. unfold set_enabled, getAudioTracks, getVideoTracks.
      split.
      * replace (existsb _ _) with false; [reflexivity|].
        symmetry. apply not_true_is_false. intros H.
        apply existsb_eqb_In, filter_In in H as (H & _). contradiction.
      * replace (existsb _ _) with false; [reflexivity|].
        symmetry. apply not_true_is_false. intros H.
        apply existsb_eqb_In, filter_In in H as (H & _). contradiction.
    + destruct c as [m v]. cbn. now rewrite negb_involutive.
    + destruct c as [m v]. cbn. now rewrite negb_involutive.
Qed.

End TrackProperties.

Lemma toggles_keep_tracks_in_step_witness :
  micOn (fst (toggleMic (fun t => match t with 0 => audio | _ => video end)
                (state calling) {| micOn := true; camOn := true |}
                (fun _ => true)))
  = false.
Proof.
  destruct (toggles_keep_tracks_in_step
              (fun t => match t with 0 => audio | _ => video end)
              (state calling) {| micOn := true; camOn := true |}
              (fun _ => true)) as (_ & H).
  exact (proj1 (H cam eq_refl)).
Defined.
(** ** Starting again *)

(** X16: [stop] keeps the cached local stream, so a [start] after it
    does not ask for the camera again: it completes at once, with no
    promise pending.  Together they close the transport in [pcRef], emit
    [stop] and then [find], and leave the status ["Searching match..."]
    with chat and queue empty. *)
Theorem start_after_stop_needs_no_camera (w : World) (stream : MediaStream) :
  socketRef (state w) = true -> localStreamRef (state w) = Some stream ->
  let w' := run w [op_stop; op_start] in
  state w' = searching (setStatus "Requesting camera..." (stop (state w)))
  /\ tasks w' = tasks w ++ [None]
  /\ unhandled w' = unhandled w
  /\ localStreamRef (state w') = Some stream
  /\ pcRef (state w') = None
  /\ status (state w') = "Searching match..."
  /\ chat (state w') = [] /\ queueInfo (state w') = None
  /\ out (state w') = out (state w) ++ [emit_stop; emit_find].
Proof.
  intros Hs Hl.
  set (s1 := setStatus "Requesting camera..." (stop (state w))).
  assert (Hst : localStreamRef (stop (state w)) = Some stream
                /\ localStreamRef s1 = Some stream
                /\ socketRef s1 = true
                /\ pcRef s1 = None
                /\ out s1 = out (state w) ++ [emit_stop]).
  { subst s1. destruct (state w) as [st ro ob qi ch dr so pr ls lv rv ps ou].
    cbn in Hs, Hl. subst so ls.
    unfold stop, emit_via_ref, cleanupPeerConnection.
    destruct pr, rv; cbn; auto. }
  destruct Hst as (Hl0 & Hl' & Hs' & Hp' & Ho').
  assert (E : run w [op_stop; op_start]
              = {| state := searching s1;
                   tasks := tasks w ++ [None]; unhandled := unhandled w |}).
  { unfold run. cbn [fold_left step].
    apply (call_done start (sync stop w)).
    cbn [sync state]. exact (start_cached _ stream Hl0). }
  cbv zeta. rewrite E. cbn [state tasks unhandled].
  destruct (searching_fields s1) as (H1 & H2 & _ & H4 & H5 & H6 & _ & H8).
  rewrite H1, H2, H4, H5, H6, H8, Hl', Hp', Hs', Ho', <- app_assoc.
  repeat apply conj; reflexivity.
Qed.

Lemma start_after_stop_needs_no_camera_witness :
  out (state (run calling [op_stop; op_start]))
  = out (state calling) ++ [emit_stop; emit_find].
Proof.
  exact (proj2 (proj2 (proj2 (proj2 (proj2 (proj2 (proj2 (proj2
           (start_after_stop_needs_no_camera calling cam
              eq_refl eq_refl))))))))).
Defined.
